(** * Postman-backend: the candidate collector, the ranker and the
      recommendation orchestrator of [main.go]

    The handlers of [main.go] talk to an upstream movie-metadata provider
    through [fetchJSON].  The development below embeds

    - the provider client ([searchByKeyword], [getDetailByID]),
    - the title resolver ([getDetailByTitle]),
    - the keyword candidate collector ([collectByGenre]),
    - the ranker ([ratingVal], [topByRating]) and
    - the orchestrator ([recommendHandler])

    as functions in a state monad over an abstract world: the world holds
    whatever the upstream provider and the Go runtime (map iteration order)
    answer next.  A run of a handler either returns or panics. *)

From Stdlib Require Import ZArith Lia Ascii String Sorted Floats.SpecFloat.
From stdpp Require Import base option list sorting gmap strings fin_maps.

Set Warnings "-register-all".
Local Open Scope string_scope.
Local Open Scope list_scope.
Local Open Scope Z_scope.

(* ===================================================================== *)
(** ** Values decoded from JSON *)
(* ===================================================================== *)

(** Go's [float64]: the IEEE 754 binary64 values. *)
Abbreviation float64 := spec_float (only parsing).

(** The value [0] that [ratingVal] returns for a rating it cannot read. *)
Definition f64_zero : float64 := S754_zero false.

(** [x > y] on [float64]; false as soon as one side is NaN. *)
Definition f64_gt (x y : float64) : bool := SFltb y x.

(** [x >= y] on [float64]; false as soon as one side is NaN. *)
Definition f64_ge (x y : float64) : bool := SFleb y x.

Definition is_nan (x : float64) : bool :=
  match x with S754_nan => true | _ => false end.

(** What [encoding/json] stores in an [interface{}]: nil, bool, float64,
    string, []interface{} or map[string]interface{}. *)
Inductive Value : Type :=
| VNull
| VBool (b : bool)
| VNumber (f : float64)
| VString (s : string)
| VArray (l : list Value)
| VObject (fields : list (string * Value)).

(** A detail record, [map[string]interface{}]. *)
Abbreviation Rec := (gmap string Value) (only parsing).

(** [v, ok := m[k].(string)]. *)
Definition str_field (m : Rec) (k : string) : option string :=
  match m !! k with
  | Some (VString s) => Some s
  | _ => None
  end.

(** [m[k] == s] for a string constant [s]: an interface value equals a
    string when it holds a string with the same bytes. *)
Definition field_is (m : Rec) (k s : string) : bool :=
  match str_field m k with
  | Some s' => bool_decide (s' = s)
  | None => false
  end.

Record searchItem : Type := mkItem {
  Title : string;
  ImdbID : string;
  Type_ : string
}.

(** [Search] is [None] for a nil slice (the key is absent or null). *)
Record searchResult : Type := mkSearch {
  Search : option (list searchItem);
  Response : string;
  Error : string
}.

(* ===================================================================== *)
(** ** The Go library *)
(* ===================================================================== *)

(** [strings.Contains]: [substr] occurs in [s] at some byte offset. *)
Fixpoint Contains (s substr : string) : bool :=
  String.prefix substr s ||
  match s with
  | EmptyString => false
  | String _ s' => Contains s' substr
  end.

(** [strings.Split(s, sep)] for a separator of one byte, here the comma. *)
Fixpoint Split (s : string) (sep : ascii) : list string :=
  match s with
  | EmptyString => [EmptyString]
  | String c s' =>
      if Ascii.eqb c sep then EmptyString :: Split s' sep
      else match Split s' sep with
           | h :: t => String c h :: t
           | [] => [String c EmptyString]
           end
  end.

(** The functions of the Go library whose definition depends on Unicode
    tables, on decimal to binary conversion or on the release of Go:
    [strings.ToLower], [strings.TrimSpace], [strconv.ParseFloat(_, 64)]
    (the result is [None] when the error is not nil) and [sort.Slice].

    The documentation of package [sort] asks that [less] be a transitive
    ordering (if [less a b] and [less b c] then [less a c]; if neither
    [less a b] nor [less b c] then not [less a c]) and notes that [<] on
    floats is no such ordering when NaN is involved.  [sort.Slice]
    permutes the slice in every case and orders it under that
    requirement. *)
Class GoLib : Type := {
  ToLower : string -> string;
  TrimSpace : string -> string;
  ParseFloat : string -> option float64;
  sort_Slice : forall {A : Type}, (A -> A -> bool) -> list A -> list A;
  ToLower_empty : ToLower "" = "";
  TrimSpace_empty : TrimSpace "" = "";
  sort_Slice_perm : forall A (less : A -> A -> bool) l,
      sort_Slice less l ≡ₚ l;
  sort_Slice_sorted : forall A (less : A -> A -> bool) l,
      (forall x, x ∈ l -> less x x = false) ->
      (forall x y z, x ∈ l -> y ∈ l -> z ∈ l ->
                     less x y = true -> less y z = true -> less x z = true) ->
      (forall x y z, x ∈ l -> y ∈ l -> z ∈ l ->
                     less x y = false -> less y z = false -> less x z = false) ->
      StronglySorted (fun a b => less b a = false) (sort_Slice less l)
}.

(* ===================================================================== *)
(** ** The ranker *)
(* ===================================================================== *)

(** A run of Go code returns a value or panics. *)
Inductive Outcome (A : Type) : Type :=
| Ret (a : A)
| Panic.
Arguments Ret {A} a.
Arguments Panic {A}.

Section Ranker.
Context `{GoLib}.

Definition ratingVal (m : Rec) : float64 :=
  match str_field m "imdbRating" with
  | Some r =>
      if bool_decide (r <> "N/A") && bool_decide (r <> "")
      then match ParseFloat r with
           | Some f => f
           | None => f64_zero
           end
      else f64_zero
  | None => f64_zero
  end.

(** The [less] closure that [topByRating] hands to [sort.Slice]. *)
Definition rating_less (a b : Rec) : bool := f64_gt (ratingVal a) (ratingVal b).

(** [list[:n]] panics when [n] is negative; [n] never exceeds the capacity
    where the program slices, since [n < len(list)] there. *)
Definition topByRating (l : list Rec) (n : Z) : Outcome (list Rec) :=
  let l := sort_Slice rating_less l in
  if Z.of_nat (length l) >? n
  then if n <? 0 then Panic else Ret (take (Z.to_nat n) l)
  else Ret l.

End Ranker.

(* ===================================================================== *)
(** ** The world outside the handlers *)
(* ===================================================================== *)

(** What the handlers cannot decide themselves: the answers of the upstream
    provider and the order in which Go ranges over a map.  Each call takes
    the current world and yields an answer and the next world, so the same
    request may be answered differently from one call to the next.

    - [fetchJSON_title t]: [fetchJSON(omdbURL({t, plot: short}), &md)];
    - [fetchJSON_id i]: [fetchJSON(omdbURL({i, plot: short}), &md)];
    - [fetchJSON_search s page]: [fetchJSON(omdbURL({s, page}), &sr)];

    the answer is [None] when [fetchJSON] returns an error (transport
    failure, status other than 200, body that does not decode) and the
    decoded body otherwise.

    - [range_map m]: the pairs met by [for k, v := range m], which are the
      pairs of [m] in an order of the runtime's choosing. *)
Class Effects (World : Type) : Type := {
  fetchJSON_title : string -> World -> option Rec * World;
  fetchJSON_id : string -> World -> option Rec * World;
  fetchJSON_search : string -> Z -> World -> option searchResult * World;
  range_map : gmap string Rec -> World -> list (string * Rec) * World;
  range_map_perm : forall m w, (range_map m w).1 ≡ₚ map_to_list m
}.

Module GoM.
Section Monad.
Context {World : Type}.

(** Computations that read and change the world and may panic. *)
Definition M (A : Type) : Type := World -> Outcome A * World.

Definition ret {A} (a : A) : M A := fun w => (Ret a, w).

Definition bind {A B} (m : M A) (f : A -> M B) : M B :=
  fun w =>
    match m w with
    | (Ret a, w') => f a w'
    | (Panic, w') => (Panic, w')
    end.

(** A call that cannot panic. *)
Definition call {A} (f : World -> A * World) : M A :=
  fun w => let (a, w') := f w in (Ret a, w').

(** A pure step that may panic. *)
Definition lift {A} (o : Outcome A) : M A := fun w => (o, w).

(** [for _, x := range xs { body }] over a loop state [s]; the body
    answers [true] to [break] and [false] to go on ([continue] included). *)
Fixpoint forRange {A S} (body : A -> S -> M (S * bool)) (xs : list A) (s : S)
  : M S :=
  match xs with
  | [] => ret s
  | x :: xs' =>
      bind (body x s) (fun r =>
        if r.2 then ret r.1 else forRange body xs' r.1)
  end.

(** Total correctness: run from [w], [m] returns (it does not panic) and
    its result and final world satisfy [Q]. *)
Definition ensures {A} (m : M A) (w : World) (Q : A -> World -> Prop) : Prop :=
  match m w with
  | (Ret a, w') => Q a w'
  | (Panic, _) => False
  end.

End Monad.
Arguments M : clear implicits.
End GoM.
Import GoM.

Notation "'let*' x ':=' m 'in' k" := (bind m (fun x => k))
  (at level 10, x name, m at level 100, k at level 200, only parsing).

(* ===================================================================== *)
(** ** Provider client and title resolver *)
(* ===================================================================== *)

(** The loop state of the three phases of the orchestrator: [seen] and
    [result]. *)
Abbreviation Picks := (gmap string bool * list Rec)%type (only parsing).

Section Program.
Context `{GoLib} {World : Type} `{!Effects World}.

Definition searchByKeyword (keyword : string) (page : Z)
  : M World (option (list searchItem)) :=
  let* r := call (fetchJSON_search keyword page) in
  match r with
  | None => ret None
  | Some sr =>
      if bool_decide (Response sr = "False") then ret None else ret (Search sr)
  end.

(** The result is [None] where the Go function returns a non-nil error. *)
Definition getDetailByID (id : string) : M World (option Rec) :=
  let* r := call (fetchJSON_id id) in
  match r with
  | None => ret None
  | Some md => if field_is md "Response" "False" then ret None else ret (Some md)
  end.

(** Body of [for _, it := range items] in [getDetailByTitle]; the loop
    state is the record to return, if any. *)
Definition resolve_item (it : searchItem) (_ : option Rec)
  : M World (option Rec * bool) :=
  if bool_decide (ImdbID it = "") then ret (None, false)
  else
    let* r := getDetailByID (ImdbID it) in
    match r with
    | Some m => ret (Some m, true)
    | None => ret (None, false)
    end.

(** Body of [for p := 1; p <= 2; p++]. *)
Definition resolve_page (title : string) (p : Z) (_ : option Rec)
  : M World (option Rec * bool) :=
  let* items := searchByKeyword title p in
  match items with
  | None => ret (None, false)
  | Some items =>
      let* r := forRange resolve_item items None in
      ret (r, bool_decide (is_Some r))
  end.

Definition getDetailByTitle (title : string) : M World (option Rec) :=
  let* r := call (fetchJSON_title title) in
  match r with
  | Some md =>
      if field_is md "Response" "True" then ret (Some md)
      else forRange (resolve_page title) [1; 2] None
  | None => forRange (resolve_page title) [1; 2] None
  end.

(* ===================================================================== *)
(** ** The keyword candidate collector *)
(* ===================================================================== *)

Definition kw : list string :=
  ["the"; "a"; "man"; "love"; "star"; "dark"; "king"; "matrix"; "avengers"].

(** The test of line 179:
    [g, ok := md["Genre"].(string); ok && strings.Contains(strings.ToLower(g), strings.ToLower(gen))]. *)
Definition genre_match (gen : string) (md : Rec) : bool :=
  match str_field md "Genre" with
  | Some g => Contains (ToLower g) (ToLower gen)
  | None => false
  end.

(** Body of [for _, it := range items] in [collectByGenre]. *)
Definition collect_item (gen : string) (limit : Z) (it : searchItem)
    (found : gmap string Rec) : M World (gmap string Rec * bool) :=
  if bool_decide (ImdbID it = "") then ret (found, false)
  else if bool_decide (is_Some (found !! ImdbID it)) then ret (found, false)
  else
    let* r := getDetailByID (ImdbID it) in
    match r with
    | None => ret (found, false)
    | Some md =>
        if genre_match gen md then
          let found := <[ImdbID it := md]> found in
          ret (found, bool_decide (Z.of_nat (size found) >= limit))
        else ret (found, false)
    end.

(** Body of [for _, k := range kw]. *)
Definition collect_keyword (gen : string) (limit : Z) (k : string)
    (found : gmap string Rec) : M World (gmap string Rec * bool) :=
  let* items := searchByKeyword k 1 in
  match items with
  | None => ret (found, false)
  | Some items =>
      let* found := forRange (collect_item gen limit) items found in
      ret (found, bool_decide (Z.of_nat (size found) >= limit))
  end.

(** The map [found] when both loops are over. *)
Definition collect_found (gen : string) (limit : Z) : M World (gmap string Rec) :=
  forRange (collect_keyword gen limit) kw ∅.

Definition collectByGenre (gen : string) (limit : Z) : M World (list Rec) :=
  let* found := collect_found gen limit in
  let* kvs := call (range_map found) in
  ret (kvs.*2).

(* ===================================================================== *)
(** ** The recommendation orchestrator *)
(* ===================================================================== *)

Definition perLevel : Z := 20.

(** [seen[id]] on a [map[string]bool]: false for an absent key. *)
Definition seen_at (seen : gmap string bool) (id : string) : bool :=
  default false (seen !! id).

(** Body of [for _, m := range cands]. *)
Definition pick (m : Rec) (st : Picks) : M World (Picks * bool) :=
  match str_field m "imdbID" with
  | Some id =>
      if negb (seen_at st.1 id) then
        let seen := <[id := true]> st.1 in
        let result := (st.2 ++ [m])%list in
        ret ((seen, result), bool_decide (Z.of_nat (length result) >= perLevel))
      else ret (st, false)
  | None => ret (st, false)
  end.

(** Body of the loop over the comma-separated terms of a seed field; it is
    the same text in the three phases. *)
Definition recommend_term (term : string) (st : Picks) : M World (Picks * bool) :=
  let term := TrimSpace term in
  let* found := collectByGenre term perLevel in
  let* cands := lift (topByRating found perLevel) in
  let* st := forRange pick cands st in
  ret (st, bool_decide (Z.of_nat (length st.2) >= perLevel)).

(** [if g, ok := seed[field].(string); ok { for ... range strings.Split(g, ",") }]. *)
Definition phase (field : string) (seed : Rec) (st : Picks) : M World Picks :=
  match str_field seed field with
  | Some g => forRange recommend_term (Split g ",") st
  | None => ret st
  end.

Definition genre_phase := phase "Genre".

(** [if len(result) < perLevel { director loop }]. *)
Definition director_phase (seed : Rec) (st : Picks) : M World Picks :=
  if bool_decide (Z.of_nat (length st.2) < perLevel)
  then phase "Director" seed st else ret st.

(** [if len(result) < perLevel { actor loop }]. *)
Definition actor_phase (seed : Rec) (st : Picks) : M World Picks :=
  if bool_decide (Z.of_nat (length st.2) < perLevel)
  then phase "Actors" seed st else ret st.

(** [seen] as the handler sets it up from the seed. *)
Definition seen_init (seed : Rec) : gmap string bool :=
  match str_field seed "imdbID" with
  | Some id => if bool_decide (id <> "") then <[id := true]> ∅ else ∅
  | None => ∅
  end.

(** Lines 246 to 312 of [recommendHandler], from the seed to [result]. *)
Definition recommend_from (seed : Rec) : M World (list Rec) :=
  let* st := genre_phase seed (seen_init seed, []) in
  let* st := director_phase seed st in
  let* st := actor_phase seed st in
  if bool_decide (Z.of_nat (length st.2) > perLevel)
  then ret (take (Z.to_nat perLevel) st.2)
  else ret st.2.

(** Lines 241 to 312: [None] is the 404 exit. *)
Definition recommend (fav : string) : M World (option (Rec * list Rec)) :=
  let* seed := getDetailByTitle fav in
  match seed with
  | None => ret None
  | Some seed =>
      let* result := recommend_from seed in
      ret (Some (seed, result))
  end.

(** [m[k]] as an [interface{}]: nil for an absent key. *)
Definition field (m : Rec) (k : string) : Value := default VNull (m !! k).

(** The [gin.H] built for one recommendation. *)
Definition recommendation (m : Rec) : Rec :=
  list_to_map
    ((fun k => (k, field m k)) <$>
     ["Title"; "Year"; "imdbID"; "Genre"; "Director"; "Actors"; "imdbRating"]).

Inductive HttpResponse : Type :=
| Status400 (error : string)
| Status404 (error : string)
| Status200 (favorite_movie : Value) (recommendations : list Rec).

Definition recommendHandler (fav : string) : M World HttpResponse :=
  if bool_decide (fav = "") then ret (Status400 "missing favorite_movie")
  else
    let* r := recommend fav in
    match r with
    | None => ret (Status404 "favorite movie not found")
    | Some (seed, result) =>
        ret (Status200 (field seed "Title") (recommendation <$> result))
    end.

End Program.

(* ===================================================================== *)
(** ** The other handlers and [omdbURL] *)
(* ===================================================================== *)

(** The literal [gin.H{k: m[k], ...}] over the keys [keys]: a key that [m]
    lacks gets nil. *)
Definition project (keys : list string) (m : Rec) : Rec :=
  list_to_map ((fun k => (k, field m k)) <$> keys).

Definition genre_keys : list string :=
  ["Title"; "Year"; "imdbID"; "Genre"; "imdbRating"].

Definition recommendation_keys : list string :=
  ["Title"; "Year"; "imdbID"; "Genre"; "Director"; "Actors"; "imdbRating"].

Definition movie_keys : list string :=
  ["Title"; "Year"; "Plot"; "Country"; "Awards"; "Director"; "Ratings"].

Definition episode_keys : list string :=
  ["Title"; "Season"; "Episode"; "Released"; "Plot"; "imdbRating"].

(** The answers of [moviesByGenreHandler]: 400 with an error, or 200 with
    [genre], [count] and [movies]. *)
Inductive GenreResponse : Type :=
| Genre400 (error : string)
| Genre200 (genre : string) (count : Z) (movies : list Rec).

(** The answers of [movieHandler] and [episodeHandler]. *)
Inductive DetailResponse : Type :=
| Detail400 (error : string)
| Detail404 (error : string)
| Detail200 (body : Rec).

(** The two fetches with [plot: full]:
    [fetchJSON(omdbURL({t, plot: full}), &m)] and
    [fetchJSON(omdbURL({t, Season, Episode, plot: full}), &m)]; the answer
    is [None] when [fetchJSON] returns an error. *)
Class DetailEffects (World : Type) : Type := {
  fetchJSON_movie : string -> World -> option Rec * World;
  fetchJSON_episode : string -> string -> string -> World -> option Rec * World
}.

Section Handlers.
Context `{GoLib} {World : Type} `{!Effects World} `{!DetailEffects World}.

Definition moviesByGenreHandler (genre : string) : M World GenreResponse :=
  if bool_decide (genre = "") then ret (Genre400 "missing genre")
  else
    let* cands := collectByGenre genre 150 in
    let* top := lift (topByRating cands 15) in
    let out := project genre_keys <$> top in
    ret (Genre200 genre (Z.of_nat (length out)) out).

Definition movieHandler (t : string) : M World DetailResponse :=
  if bool_decide (t = "") then ret (Detail400 "missing title")
  else
    let* r := call (fetchJSON_movie t) in
    match r with
    | None => ret (Detail404 "movie not found")
    | Some m =>
        if field_is m "Response" "False" then ret (Detail404 "movie not found")
        else ret (Detail200 (project movie_keys m))
    end.

Definition episodeHandler (s se e : string) : M World DetailResponse :=
  if bool_decide (s = "") || bool_decide (se = "") || bool_decide (e = "")
  then ret (Detail400 "missing parameters")
  else
    let* r := call (fetchJSON_episode s se e) in
    match r with
    | None => ret (Detail404 "episode not found")
    | Some m =>
        if field_is m "Response" "False" then ret (Detail404 "episode not found")
        else ret (Detail200 (project episode_keys m))
    end.

End Handlers.

(** [omdbURL]: [v := url.Values{}; v.Set("apikey", apiKey)], then
    [v.Set(k, val)] for the pairs of [params] in the order [order] in which
    the runtime ranges over them, then the base address with [v.Encode()]
    behind.  [url.Values] is [map[string][]string] and [Set] stores the one
    value; [encode] stands for [url.Values.Encode], [apiKey] for the
    variable of that name. *)
Section OmdbURL.
Context (encode : gmap string (list string) -> string) (apiKey : string).

Definition omdb_values (order : list (string * string)) : gmap string (list string) :=
  fold_left (fun v kv => <[kv.1 := [kv.2]]> v) order {["apikey" := [apiKey]]}.

Definition omdbURL (order : list (string * string)) : string :=
  "https://www.omdbapi.com/?" ++ encode (omdb_values order).

End OmdbURL.

(* ===================================================================== *)
(** ** An instance of the Go library for byte strings in ASCII *)
(* ===================================================================== *)

Module Ascii7.

Definition lower_byte (c : ascii) : ascii :=
  let n := N_of_ascii c in
  if ((65 <=? n) && (n <=? 90))%N then ascii_of_N (n + 32) else c.

(** [strings.ToLower] on ASCII text: bytes [A] to [Z] move to [a] to [z]. *)
Fixpoint ToLower (s : string) : string :=
  match s with
  | EmptyString => EmptyString
  | String c s' => String (lower_byte c) (ToLower s')
  end.

(** Space, [\t], [\n], [\v], [\f] and [\r]. *)
Definition is_space (c : ascii) : bool :=
  let n := N_of_ascii c in
  ((n =? 32) || ((9 <=? n) && (n <=? 13)))%N.

Fixpoint trim_left (s : string) : string :=
  match s with
  | EmptyString => EmptyString
  | String c s' => if is_space c then trim_left s' else s
  end.

Fixpoint trim_right (s : string) : string :=
  match s with
  | EmptyString => EmptyString
  | String c s' =>
      match trim_right s' with
      | EmptyString => if is_space c then EmptyString else String c EmptyString
      | t => String c t
      end
  end.

(** [strings.TrimSpace] on ASCII text. *)
Definition TrimSpace (s : string) : string := trim_right (trim_left s).

Definition digit_of (c : ascii) : option Z :=
  let n := N_of_ascii c in
  if ((48 <=? n) && (n <=? 57))%N then Some (Z.of_N (n - 48)) else None.

(** Reads the digits that start [s]: the number read so far, how many digits
    it has, and what follows them. *)
Fixpoint read_digits (s : string) (acc : Z) (count : nat) : Z * nat * string :=
  match s with
  | EmptyString => (acc, count, s)
  | String c s' =>
      match digit_of c with
      | Some d => read_digits s' (10 * acc + d) (S count)
      | None => (acc, count, s)
      end
  end.

Definition of_int (m : Z) : float64 := binary_normalize 53 1024 m 0 false.

(** [m / 10^k] rounded to nearest even; [neg] is the sign of a zero. *)
Definition decimal (neg : bool) (m : Z) (k : nat) : float64 :=
  if m =? 0 then S754_zero neg
  else SFdiv 53 1024 (of_int (if neg then - m else m)) (of_int (10 ^ Z.of_nat k)).

Definition unsigned_decimal (neg : bool) (s : string) : option float64 :=
  let '(m1, n1, rest) := read_digits s 0 0 in
  let '(m, n, rest) :=
    match rest with
    | String "." rest' => read_digits rest' m1 n1
    | _ => (m1, n1, rest)
    end in
  if bool_decide (rest = EmptyString) && (0 <? n)%nat && (n <=? 15)%nat
  then Some (decimal neg m (n - n1))
  else None.

(** [strconv.ParseFloat(s, 64)] where [s] is [NaN] in any case, or a plain
    decimal ([8.5], [-0.25], [7.], [.5]) of at most 15 digits: such a
    decimal is a quotient of two integers that binary64 holds exactly, and
    one rounded division gives the nearest binary64.  Go reads more
    (exponents, hexadecimal digits, infinities, mantissas of any length);
    this instance answers [None] there, as it does where Go reports an
    error. *)
Definition ParseFloat (s : string) : option float64 :=
  if bool_decide (ToLower s = "nan") then Some S754_nan
  else match s with
       | String "+" s' => unsigned_decimal false s'
       | String "-" s' => unsigned_decimal true s'
       | _ => unsigned_decimal false s
       end.

(** One pass of the inner loop of insertion sort: [x] moves left while it
    is [less] than its left neighbour.  [before] holds the elements to the
    left of [x], nearest first; so does the result, with [x] in place. *)
Fixpoint sink {A} (less : A -> A -> bool) (x : A) (before : list A) : list A :=
  match before with
  | [] => [x]
  | y :: before' => if less x y then y :: sink less x before' else x :: before
  end.

(** [insertionSortLessFunc] of package [sort], which is all that
    [sort.Slice] runs on a slice of at most 12 elements. *)
Definition insertionSort {A} (less : A -> A -> bool) (l : list A) : list A :=
  rev (fold_left (fun before x => sink less x before) l []).

End Ascii7.

(* ===================================================================== *)
(** ** A scripted world *)
(* ===================================================================== *)

Inductive Request : Type :=
| GetTitle (t : string)
| GetID (i : string)
| GetSearch (s : string) (page : Z).

(** A provider that answers each request the same way every time. *)
Record Catalog : Type := mkCatalog {
  by_title : string -> option Rec;
  by_id : string -> option Rec;
  by_search : string -> Z -> option searchResult
}.

(** The world of a scripted run is the log of the requests sent so far. *)
Abbreviation Log := (list Request) (only parsing).

Definition log_title (c : Catalog) (t : string) (w : Log) : option Rec * Log :=
  (by_title c t, (w ++ [GetTitle t])%list).

Definition log_id (c : Catalog) (i : string) (w : Log) : option Rec * Log :=
  (by_id c i, (w ++ [GetID i])%list).

Definition log_search (c : Catalog) (s : string) (page : Z) (w : Log)
  : option searchResult * Log :=
  (by_search c s page, (w ++ [GetSearch s page])%list).

(** Ranging over a map in the order of [map_to_list]. *)
Definition log_range (m : gmap string Rec) (w : Log) : list (string * Rec) * Log :=
  (map_to_list m, w).

(** The scripted world of a catalog. *)
Definition scripted (c : Catalog) : Effects Log := {|
  fetchJSON_title := log_title c;
  fetchJSON_id := log_id c;
  fetchJSON_search := log_search c;
  range_map := log_range;
  range_map_perm := fun m w => reflexivity (map_to_list m)
|}.

(** A record from its fields. *)
Definition rec (fields : list (string * Value)) : Rec := list_to_map fields.

Definition hit (id : string) : searchItem := mkItem "" id "movie".

Definition hits (ids : list string) : option searchResult :=
  Some (mkSearch (Some (hit <$> ids)) "True" "").

(** *** A provider with a log *)

(** Any provider, with a log beside it: it answers as the provider
    underneath does and notes each request. *)
Definition traced `{Effects World} : Effects (World * Log) := {|
  fetchJSON_title t wl :=
    ((fetchJSON_title t wl.1).1, ((fetchJSON_title t wl.1).2, wl.2 ++ [GetTitle t]));
  fetchJSON_id i wl :=
    ((fetchJSON_id i wl.1).1, ((fetchJSON_id i wl.1).2, wl.2 ++ [GetID i]));
  fetchJSON_search s page wl :=
    ((fetchJSON_search s page wl.1).1,
     ((fetchJSON_search s page wl.1).2, wl.2 ++ [GetSearch s page]));
  range_map m wl := ((range_map m wl.1).1, ((range_map m wl.1).2, wl.2));
  range_map_perm := fun m wl => range_map_perm m wl.1
|}.

(** The searches among some requests, in order. *)
Definition searches (reqs : list Request) : list (string * Z) :=
  omap (fun r => match r with GetSearch s page => Some (s, page) | _ => None end) reqs.

(** A search, or a fetch for an id that is not empty; not a fetch by
    title. *)
Definition search_or_id (r : Request) : Prop :=
  match r with
  | GetTitle _ => False
  | GetID i => i <> ""
  | GetSearch _ _ => True
  end.

(** The log of [wl] is [log] with requests behind that satisfy [P]. *)
Definition sent {World} (P : list Request -> Prop) (log : Log)
    (wl : World * Log) : Prop :=
  exists reqs, wl.2 = log ++ reqs /\ P reqs.

(** *** Sample catalogs *)

Module Sample.

(** A detail record the way the provider sends one. *)
Definition movie (id genre rating : string) : Rec :=
  rec [("imdbID", VString id); ("Genre", VString genre);
       ("imdbRating", VString rating); ("Response", VString "True")].

Definition inception : Rec :=
  rec [("Title", VString "Inception"); ("imdbID", VString "tt1375666");
       ("Genre", VString "Action, Sci-Fi");
       ("Director", VString "Christopher Nolan");
       ("Actors", VString "Leonardo DiCaprio, Elliot Page");
       ("imdbRating", VString "8.8"); ("Response", VString "True")].

Definition details : list (string * Rec) :=
  [("tt0133093", movie "tt0133093" "Action, Sci-Fi" "8.7");
   ("tt0109830", movie "tt0109830" "Drama, Romance" "8.8");
   ("tt0468569", movie "tt0468569" "Action, Crime, Drama" "9.0");
   ("tt0088763", movie "tt0088763" "Adventure, Comedy, Sci-Fi" "N/A");
   ("tt1375666", inception)].

(** A provider that echoes ids: a title, a page of hits for two keywords,
    one of the hits without id, one with no detail behind it. *)
Definition catalog : Catalog := {|
  by_title t := if bool_decide (t = "Inception") then Some inception else None;
  by_id i := (list_to_map details : gmap string Rec) !! i;
  by_search s page :=
    if bool_decide (s = "the" /\ page = 1)
    then hits ["tt0133093"; ""; "tt0109830"; "tt1375666"; "tt9999999"]
    else if bool_decide (s = "dark" /\ page = 1)
    then hits ["tt0468569"; "tt0133093"; "tt0088763"]
    else None
|}.

(** A record with a title and nothing to recommend from. *)
Definition blank : Rec :=
  rec [("Title", VString "Blank"); ("Genre", VNull); ("Response", VString "True")].

(** The same title, and a blank one, behind a provider that finds nothing
    else. *)
Definition bare_catalog : Catalog := {|
  by_title t :=
    if bool_decide (t = "Inception") then Some inception
    else if bool_decide (t = "Blank") then Some blank else None;
  by_id i := None;
  by_search s page := None
|}.

(** Two hits, one detail record: the provider answers both ids with the
    record of a third. *)
Definition alias_catalog : Catalog := {|
  by_title t := None;
  by_id i :=
    if bool_decide (i = "tt0000001" \/ i = "tt0000002")
    then Some (movie "tt0000009" "Action" "7.1") else None;
  by_search s page :=
    if bool_decide (s = "the") then hits ["tt0000001"; "tt0000002"] else None
|}.

(** A detail record without [imdbID] whose [Response] is neither ["True"]
    nor ["False"]. *)
Definition odd : Rec :=
  rec [("Genre", VString "Action"); ("Response", VString "Partial")].

Definition odd_catalog : Catalog := {|
  by_title t := None;
  by_id i := if bool_decide (i = "tt0000001") then Some odd else None;
  by_search s page :=
    if bool_decide (s = "the") then hits ["tt0000001"] else None
|}.

(** A seed and a candidate that both carry the empty [imdbID]. *)
Definition nameless : Rec :=
  rec [("Title", VString "Untitled"); ("imdbID", VString "");
       ("Genre", VString "Action"); ("Response", VString "True")].

Definition nameless_catalog : Catalog := {|
  by_title t := if bool_decide (t = "Untitled") then Some nameless else None;
  by_id i :=
    if bool_decide (i = "tt0000001") then Some (movie "" "Action" "6.0") else None;
  by_search s page :=
    if bool_decide (s = "the") then hits ["tt0000001"] else None
|}.

(** Twenty-two action movies behind the first keyword. *)
Definition serial (n : nat) : string :=
  "tt00000" ++ String (ascii_of_nat (48 + n / 10)) (String (ascii_of_nat (48 + n mod 10)) "").

Definition serials : list string := serial <$> seq 1 22.

Definition heat : Rec :=
  rec [("Title", VString "Heat"); ("imdbID", VString "tt0113277");
       ("Genre", VString "Action"); ("Director", VString "Michael Mann");
       ("Actors", VString "Al Pacino, Robert De Niro");
       ("Response", VString "True")].

Definition action_catalog : Catalog := {|
  by_title t := if bool_decide (t = "Heat") then Some heat else None;
  by_id i := if bool_decide (i ∈ serials) then Some (movie i "Action" "7.5") else None;
  by_search s page := if bool_decide (s = "the") then hits serials else None
|}.

(** Three candidates, the second with a rating that parses to NaN. *)
Definition rated : list Rec :=
  [movie "tt0000001" "Action" "1"; movie "tt0000002" "Action" "NaN";
   movie "tt0000003" "Action" "2"].

Definition ranked : list Rec :=
  [movie "tt0000001" "Action" "7.9"; movie "tt0000002" "Action" "9.1";
   movie "tt0000003" "Action" "N/A"; movie "tt0000004" "Action" "8.5"].

End Sample.

(** *** More samples *)

Module SampleMore.

(** What the provider sends for a title with [plot: full]. *)
Definition inception_full : Rec :=
  rec [("Title", VString "Inception"); ("Year", VString "2010");
       ("Plot", VString "A thief who steals corporate secrets ...");
       ("Country", VString "United States, United Kingdom");
       ("Awards", VString "Won 4 Oscars.");
       ("Director", VString "Christopher Nolan");
       ("imdbID", VString "tt1375666"); ("Response", VString "True")].

Definition pilot : Rec :=
  rec [("Title", VString "Pilot"); ("Season", VString "1");
       ("Episode", VString "1"); ("Released", VString "2008-01-20");
       ("imdbRating", VString "9.0"); ("Response", VString "True")].

Definition refusal : Rec :=
  rec [("Response", VString "False"); ("Error", VString "Movie not found!")].

(** A provider for the two fetches with [plot: full]; its world counts the
    requests. *)
Definition counting : DetailEffects nat := {|
  fetchJSON_movie t n :=
    (if bool_decide (t = "Inception") then Some inception_full
     else if bool_decide (t = "Memento") then Some refusal else None, S n);
  fetchJSON_episode s se e n :=
    (if bool_decide (s = "Breaking Bad" /\ se = "1" /\ e = "1") then Some pilot
     else if bool_decide (s = "Breaking Bad") then Some refusal else None, S n)
|}.

Definition short_params : gmap string string :=
  list_to_map [("t", "Inception"); ("plot", "short")].

(** An encoding that writes the pairs down as they come, for trying out
    [omdbURL]. *)
Definition plain_query (v : gmap string (list string)) : string :=
  String.concat "&"
    ((fun kv => kv.1 ++ "=" ++ String.concat "," kv.2)%string <$> map_to_list v).

End SampleMore.

(* ===================================================================== *)
(** ** The vocabulary of the properties *)
(* ===================================================================== *)

Section WeakOrder.
Context {A : Type} (less : A -> A -> bool).

(** [less] is a strict weak order on the elements of [dom]. *)
Record weak_order (dom : list A) : Prop := {
  wo_irrefl x : x ∈ dom -> less x x = false;
  wo_trans x y z :
    x ∈ dom -> y ∈ dom -> z ∈ dom ->
    less x y = true -> less y z = true -> less x z = true;
  wo_negtrans x y z :
    x ∈ dom -> y ∈ dom -> z ∈ dom ->
    less x y = false -> less y z = false -> less x z = false
}.

End WeakOrder.

Section Vocabulary.
Context `{GoLib} {World : Type} `{!Effects World}.
Implicit Types (w : World) (found : gmap string Rec) (md : Rec).

(** A record that [getDetailByID id] can hand out in world [w]: the
    provider sent it for [id], and its [Response] is not ["False"]. *)
Definition fetched (id : string) (md : Rec) (w : World) : Prop :=
  (fetchJSON_id id w).1 = Some md /\ field_is md "Response" "False" = false.

(** How large [found] gets: an insertion that reaches [limit] ends the
    scan, so [found] holds at most [limit] records, or one if [limit] is
    less than one. *)
Definition room_left (limit : Z) found : Prop :=
  size found = 0%nat \/ Z.of_nat (size found) < limit.

Definition within (limit : Z) found : Prop :=
  Z.of_nat (size found) <= Z.max limit 1.

(** A rating that [ratingVal] cannot read: the field is missing or holds no
    string, or the string is empty, ["N/A"], or refused by [ParseFloat]. *)
Definition no_rating (m : Rec) : Prop :=
  match str_field m "imdbRating" with
  | None => True
  | Some r => r = "" \/ r = "N/A" \/ ParseFloat r = None
  end.

(** [a] comes before [b] only if the rating of [a] is at least that of [b]. *)
Definition by_rating (a b : Rec) : Prop :=
  f64_ge (ratingVal a) (ratingVal b) = true.

(** [m["imdbID"]] when it is a string. *)
Definition imdb (m : Rec) : option string := str_field m "imdbID".

(** The state of the phases: at most [perLevel] results, no id twice, every
    result's id is a string marked in [seen] and was not marked in [base]
    (the [seen] the handler started from), and [seen] only grows. *)
Record acc_ok (base : gmap string bool) (st : Picks) : Prop := {
  acc_len : Z.of_nat (length st.2) <= perLevel;
  acc_nodup : NoDup (imdb <$> st.2);
  acc_ids : Forall (fun m => exists id,
                      imdb m = Some id /\ seen_at st.1 id = true /\
                      seen_at base id = false) st.2;
  acc_base : forall id, seen_at base id = true -> seen_at st.1 id = true
}.

(** The state when a loop body is entered: there is room left. *)
Definition acc_open (base : gmap string bool) (st : Picks) : Prop :=
  acc_ok base st /\ Z.of_nat (length st.2) < perLevel.

(** A record with a non-empty [imdbID], and one whose [Response] is
    ["True"] or absent. *)
Definition has_id (md : Rec) : Prop :=
  exists id, md !! "imdbID" = Some (VString id) /\ id <> "".

Definition response_true_or_absent (md : Rec) : Prop :=
  md !! "Response" = Some (VString "True") \/ md !! "Response" = None.

(** What the collector checks before it stores a record: the id of the
    search hit it stores it under is not empty, and the [Response] of the
    record is not ["False"]. *)
Definition checked (found : gmap string Rec) : Prop :=
  forall id md,
    found !! id = Some md -> id <> "" /\ field_is md "Response" "False" = false.

(** The provider echoes ids: a detail record sent for [id] carries [id] as
    its [imdbID]. *)
Definition echoes_ids : Prop :=
  forall id md w,
    (fetchJSON_id id w).1 = Some md -> md !! "imdbID" = Some (VString id).

(** The ids of the results, as the response shows them. *)
Definition ids (result : list Rec) : list (option Value) :=
  (fun m : Rec => m !! "imdbID") <$> result.

End Vocabulary.

Section MoreVocabulary.
Context `{GoLib} {World : Type} `{!Effects World}.

(** Where a record that the search loops of [getDetailByTitle] hand back
    comes from: it was fetched for the id, not empty, of a hit. *)
Definition by_hit (r : option Rec) : Prop :=
  match r with
  | Some md => exists id w0, id <> "" /\ fetched id md w0
  | None => True
  end.

(** The terms that a phase takes from a field of the seed, trimmed. *)
Definition terms (seed : Rec) (field : string) : list string :=
  match str_field seed field with
  | Some g => TrimSpace <$> Split g ","
  | None => []
  end.

(** [m] is a record, not refused by the provider, whose Genre passes the
    test of line 179 for one of the terms [ts]. *)
Definition picked_for (ts : list string) (m : Rec) : Prop :=
  field_is m "Response" "False" = false /\
  exists t, t ∈ ts /\ genre_match t m = true.

(** What a loop adds to [result]: [st'] is [st] with records behind that
    satisfy [P]. *)
Definition grown (P : Rec -> Prop) (st st' : Picks) : Prop :=
  exists added, st'.2 = st.2 ++ added /\ Forall P added.

(** Fetches for ids that are not empty, and nothing else. *)
Definition ids_only (reqs : list Request) : Prop :=
  Forall search_or_id reqs /\ searches reqs = [].

(** After the keywords [done], the requests are searches of page 1 for
    these keywords in order, each followed by fetches for ids. *)
Definition scanned (done : list string) (reqs : list Request) : Prop :=
  Forall search_or_id reqs /\ searches reqs = (fun k => (k, 1)) <$> done.

(** After the pages [done] of the search for [title], the requests are
    the searches for these pages in order, each followed by fetches for
    ids. *)
Definition paged (title : string) (done : list Z) (reqs : list Request) : Prop :=
  Forall search_or_id reqs /\ searches reqs = (fun p => (title, p)) <$> done.

(** The requests stop at the fetch that gave the record [r]. *)
Definition ends_at_hit (r : option Rec) (reqs : list Request) : Prop :=
  match r with
  | Some _ => exists pre i, reqs = pre ++ [GetID i]
  | None => True
  end.

(** At most [n] searches, and besides them fetches for ids that are not
    empty. *)
Definition few_searches (n : nat) (reqs : list Request) : Prop :=
  Forall search_or_id reqs /\ (length (searches reqs) <= n)%nat.

End MoreVocabulary.

(* ===================================================================== *)
(** ** Reasoning about runs *)
(* ===================================================================== *)

Section Logic.
Context {World : Type}.
Implicit Types w : World.

Lemma ensures_ret {A} (a : A) w (Q : A -> World -> Prop) :
  Q a w -> ensures (ret a) w Q.
Proof. done. Qed.

Lemma ensures_bind {A B} (m : M World A) (f : A -> M World B) w Q :
  ensures m w (fun a w' => ensures (f a) w' Q) -> ensures (bind m f) w Q.
Proof. unfold ensures, bind. by destruct (m w) as [[a|] w']. Qed.

Lemma ensures_bind_inv {A B} (m : M World A) (f : A -> M World B) w Q :
  ensures (bind m f) w Q -> ensures m w (fun a w' => ensures (f a) w' Q).
Proof. unfold ensures, bind. by destruct (m w) as [[a|] w']. Qed.

Lemma ensures_call {A} (f : World -> A * World) w (Q : A -> World -> Prop) :
  Q (f w).1 (f w).2 -> ensures (call f) w Q.
Proof. unfold ensures, call. by destruct (f w). Qed.

Lemma ensures_lift {A} (a : A) w (Q : A -> World -> Prop) :
  Q a w -> ensures (lift (Ret a)) w Q.
Proof. done. Qed.

Lemma ensures_mono {A} (m : M World A) w (Q Q' : A -> World -> Prop) :
  ensures m w Q -> (forall a w', Q a w' -> Q' a w') -> ensures m w Q'.
Proof. unfold ensures. destruct (m w) as [[a|] w']; auto. Qed.

Lemma ensures_and {A} (m : M World A) w (Q Q' : A -> World -> Prop) :
  ensures m w Q -> ensures m w Q' -> ensures m w (fun a w' => Q a w' /\ Q' a w').
Proof. unfold ensures. destruct (m w) as [[a|] w']; auto. Qed.

Lemma ensures_run {A} (m : M World A) w (Q : A -> World -> Prop) :
  ensures m w Q <-> exists a w', m w = (Ret a, w') /\ Q a w'.
Proof.
  unfold ensures. destruct (m w) as [[a|] w']; split.
  - eauto.
  - by intros (? & ? & [= -> ->] & ?).
  - done.
  - by intros (? & ? & [=] & ?).
Qed.

Lemma run_bind {A B} (m : M World A) (f : A -> M World B) w a w' :
  m w = (Ret a, w') -> bind m f w = f a w'.
Proof. unfold bind. by intros ->. Qed.

(** The rule for loops with [break]: [I] holds whenever the body is
    entered, [Q] when the loop is left, by [break] or at the end of [xs]. *)
Lemma ensures_forRange {A S} (body : A -> S -> M World (S * bool))
    (I Q : S -> World -> Prop) xs :
  (forall s w, I s w -> Q s w) ->
  (forall x s w, x ∈ xs -> I s w ->
     ensures (body x s) w (fun r w' => if r.2 then Q r.1 w' else I r.1 w')) ->
  forall s w, I s w -> ensures (forRange body xs s) w Q.
Proof.
  intros Hend. induction xs as [|x xs IH]; intros Hbody s w HI; simpl.
  - by apply ensures_ret, Hend.
  - apply ensures_bind.
    eapply ensures_mono; [apply Hbody; [left|done]|].
    intros [s' [|]] w' Hs'; simpl in *.
    + by apply ensures_ret.
    + apply IH; [|done]. intros ????. apply Hbody. by right.
Qed.

(** The same with one invariant for both. *)
Lemma ensures_forRange_inv {A S} (body : A -> S -> M World (S * bool))
    (I : S -> World -> Prop) xs :
  (forall x s w, x ∈ xs -> I s w -> ensures (body x s) w (fun r w' => I r.1 w')) ->
  forall s w, I s w -> ensures (forRange body xs s) w I.
Proof.
  intros Hbody. apply ensures_forRange; [done|].
  intros x s w Hx HI. eapply ensures_mono; [by apply Hbody|].
  by intros [? []].
Qed.

End Logic.


(* ===================================================================== *)
(** ** The order of [float64] *)
(* ===================================================================== *)

Section FloatOrder.
Implicit Types x y z : float64.

(** Case analysis on the floats in sight, down to integer comparisons. *)
Ltac float_cases :=
  unfold f64_gt, f64_ge, SFltb, SFleb, SFcompare, is_nan;
  repeat match goal with
         | x : spec_float |- _ => destruct x as [[]|[]| |[] ? ?]
         end;
  simpl; try done;
  change (Pos.compare_cont Eq) with Pos.compare;
  repeat match goal with
         | |- context [(?a ?= ?b)%Z] => destruct (Z.compare_spec a b)
         | |- context [(?a ?= ?b)%positive] => destruct (Pos.compare_spec a b)
         end;
  simpl; try done; try lia.

Lemma SFltb_irrefl x : SFltb x x = false.
Proof. float_cases. Qed.

Lemma SFltb_trans x y z :
  SFltb x y = true -> SFltb y z = true -> SFltb x z = true.
Proof. float_cases. Qed.

Lemma SFltb_negtrans x y z :
  is_nan x = false -> is_nan y = false -> is_nan z = false ->
  SFltb x y = false -> SFltb y z = false -> SFltb x z = false.
Proof. float_cases. Qed.

Lemma SFltb_false_SFleb x y :
  is_nan x = false -> is_nan y = false -> SFltb x y = false -> SFleb y x = true.
Proof. float_cases. Qed.

End FloatOrder.

(* ===================================================================== *)
(** ** Insertion sort meets the contract of [sort.Slice] *)
(* ===================================================================== *)

Section InsertionSort.
Context {A : Type} (less : A -> A -> bool).
Implicit Types l before : list A.

Lemma sink_perm x before : Ascii7.sink less x before ≡ₚ x :: before.
Proof.
  induction before as [|y before IH]; simpl; [done|].
  destruct (less x y); [|done].
  rewrite IH. apply Permutation_swap.
Qed.

Lemma sink_fold_perm l before :
  fold_left (fun before x => Ascii7.sink less x before) l before ≡ₚ l ++ before.
Proof.
  revert before. induction l as [|x l IH]; intros before; simpl; [done|].
  rewrite IH, sink_perm. by rewrite Permutation_middle.
Qed.

Lemma insertionSort_perm l : Ascii7.insertionSort less l ≡ₚ l.
Proof.
  unfold Ascii7.insertionSort.
  by rewrite <- Permutation_rev, sink_fold_perm, app_nil_r.
Qed.


Lemma weak_order_asym dom x y :
  weak_order less dom -> x ∈ dom -> y ∈ dom -> less x y = true -> less y x = false.
Proof.
  intros Hwo Hx Hy Hxy. destruct (less y x) eqn:Hyx; [|done].
  rewrite <- (wo_irrefl less dom Hwo x Hx). symmetry. by eapply (wo_trans less dom Hwo x y x).
Qed.

(** Read from the right, the sorted prefix never has a later element
    [less] than an earlier one. *)
Lemma sink_sorted dom x before :
  weak_order less dom -> x ∈ dom -> Forall (.∈ dom) before ->
  StronglySorted (fun a b => less a b = false) before ->
  StronglySorted (fun a b => less a b = false) (Ascii7.sink less x before).
Proof.
  intros Hwo Hx. induction before as [|y before IH]; intros Hdom Hs; simpl.
  - repeat constructor.
  - apply Forall_cons in Hdom as [Hy Hdom].
    apply StronglySorted_inv in Hs as [Hs Hall].
    destruct (less x y) eqn:Hxy.
    + constructor; [by apply IH|].
      rewrite (sink_perm x before). constructor; [|done].
      by eapply weak_order_asym.
    + constructor; [by constructor|]. constructor; [done|].
      rewrite Forall_forall in Hall, Hdom. apply Forall_forall. intros z Hz.
      apply (wo_negtrans less dom Hwo x y z); auto.
Qed.

Lemma sink_fold_sorted dom l before :
  weak_order less dom -> Forall (.∈ dom) l -> Forall (.∈ dom) before ->
  StronglySorted (fun a b => less a b = false) before ->
  StronglySorted (fun a b => less a b = false)
    (fold_left (fun before x => Ascii7.sink less x before) l before).
Proof.
  intros Hwo. revert before.
  induction l as [|x l IH]; intros before Hl Hb Hs; simpl; [done|].
  apply Forall_cons in Hl as [Hx Hl]. apply IH; [done| |by eapply sink_sorted].
  rewrite (sink_perm x before). by constructor.
Qed.

Lemma StronglySorted_rev (R : A -> A -> Prop) l :
  StronglySorted R l -> StronglySorted (fun a b => R b a) (rev l).
Proof.
  induction 1 as [|x l Hs IH Hall]; simpl; [constructor|].
  apply StronglySorted_app_2; [|done|repeat constructor].
  intros a b Ha Hb. apply list_elem_of_singleton in Hb as ->.
  rewrite Forall_forall in Hall. apply Hall.
  by apply list_elem_of_In, in_rev, list_elem_of_In.
Qed.

Lemma insertionSort_sorted l :
  weak_order less l ->
  StronglySorted (fun a b => less b a = false) (Ascii7.insertionSort less l).
Proof.
  intros Hwo. unfold Ascii7.insertionSort.
  apply (StronglySorted_rev (fun a b => less a b = false)).
  apply (sink_fold_sorted l); [done| |constructor|constructor].
  by apply Forall_forall.
Qed.

End InsertionSort.

(** The Go library on ASCII text, with insertion sort for [sort.Slice]. *)
Definition ascii_lib : GoLib := {|
  ToLower := Ascii7.ToLower;
  TrimSpace := Ascii7.TrimSpace;
  ParseFloat := Ascii7.ParseFloat;
  sort_Slice := @Ascii7.insertionSort;
  ToLower_empty := eq_refl;
  TrimSpace_empty := eq_refl;
  sort_Slice_perm := @insertionSort_perm;
  sort_Slice_sorted := fun A less l Hirr Htr Hneg =>
    insertionSort_sorted less l (Build_weak_order less l Hirr Htr Hneg)
|}.

(* ===================================================================== *)
(** ** Provider client, resolver and collector: what every run does *)
(* ===================================================================== *)

Section Collector.
Context `{GoLib} {World : Type} `{!Effects World}.
Implicit Types (w : World) (found : gmap string Rec) (md : Rec).

(** [lia] with the sizes of maps taken as unknowns. *)
Ltac size_lia :=
  repeat match goal with
         | |- context [size ?m] => generalize dependent (size m); intros
         | H : context [size ?m] |- _ => generalize dependent (size m); intros
         end;
  lia.


Lemma searchByKeyword_run keyword page w :
  exists items,
    searchByKeyword keyword page w = (Ret items, (fetchJSON_search keyword page w).2).
Proof.
  unfold searchByKeyword, bind, call.
  destruct (fetchJSON_search keyword page w) as [[sr|] w']; simpl; [|by eexists].
  case_bool_decide; by eexists.
Qed.

Lemma getDetailByID_run id w :
  exists r,
    getDetailByID id w = (Ret r, (fetchJSON_id id w).2) /\
    match r with
    | Some md => fetched id md w
    | None => True
    end.
Proof.
  unfold getDetailByID, bind, call, fetched.
  destruct (fetchJSON_id id w) as [[md|] w']; simpl; [|by eexists].
  destruct (field_is md "Response" "False") eqn:Hr; by eexists.
Qed.

(** What one pass of the inner loop does to [found]: nothing, or it stores
    under the hit's id a record just fetched for that id whose Genre
    matches. *)
Lemma collect_item_run gen limit it found w :
  exists found' brk w',
    collect_item gen limit it found w = (Ret (found', brk), w') /\
    ((found' = found /\ brk = false) \/
     (exists md,
        ImdbID it <> "" /\ found !! ImdbID it = None /\
        fetched (ImdbID it) md w /\ genre_match gen md = true /\
        found' = <[ImdbID it := md]> found /\
        brk = bool_decide (Z.of_nat (size found') >= limit))).
Proof.
  assert (forall w', exists found' brk w'',
            @ret World _ (found, false) w' = (Ret (found', brk), w'') /\
            ((found' = found /\ brk = false) \/
             (exists md,
                ImdbID it <> "" /\ found !! ImdbID it = None /\
                fetched (ImdbID it) md w /\ genre_match gen md = true /\
                found' = <[ImdbID it := md]> found /\
                brk = bool_decide (Z.of_nat (size found') >= limit))))
    as Hskip by (intros w'; do 3 eexists; split; [reflexivity|by left]).
  unfold collect_item.
  case_bool_decide as Hid; [done|].
  case_bool_decide as Hin; [done|].
  destruct (getDetailByID_run (ImdbID it) w) as (r & Hrun & Hr).
  rewrite (run_bind _ _ _ _ _ Hrun).
  destruct r as [md|]; [|done].
  destruct (genre_match gen md) eqn:Hg; [|done].
  do 3 eexists. split; [done|]. right. exists md.
  split; [done|]. split; [by apply eq_None_not_Some|]. done.
Qed.

(** An invariant of [found] that survives every insertion survives the
    scan of a result page ... *)
Lemma collect_items_inv (P : gmap string Rec -> Prop) gen limit items :
  (forall found id md w,
     P found -> id <> "" -> found !! id = None -> fetched id md w ->
     genre_match gen md = true -> P (<[id := md]> found)) ->
  forall found w,
    P found ->
    ensures (forRange (collect_item gen limit) items found) w (fun found' _ => P found').
Proof.
  intros Hins found w HP.
  apply (ensures_forRange_inv _ (fun found' _ => P found')); [|done].
  clear found w HP. intros it found w _ HP.
  destruct (collect_item_run gen limit it found w)
    as (found' & brk & w' & Hrun & [[-> ->]|(md & ? & ? & ? & ? & -> & ->)]);
    apply ensures_run; do 2 eexists; (split; [done|]); simpl; eauto.
Qed.

(** ... and the scan of all the keywords. *)
Lemma collect_found_inv (P : gmap string Rec -> Prop) gen limit :
  (forall found id md w,
     P found -> id <> "" -> found !! id = None -> fetched id md w ->
     genre_match gen md = true -> P (<[id := md]> found)) ->
  P ∅ ->
  forall w, ensures (collect_found gen limit) w (fun found _ => P found).
Proof.
  intros Hins Hempty w. unfold collect_found.
  apply (ensures_forRange_inv _ (fun found' _ => P found')); [|done].
  clear w. intros k found w _ HP. unfold collect_keyword.
  destruct (searchByKeyword_run k 1 w) as (items & Hrun).
  apply ensures_bind, ensures_run. do 2 eexists. split; [done|].
  destruct items as [items|]; [|by apply ensures_ret].
  apply ensures_bind. eapply ensures_mono; [by apply collect_items_inv|].
  intros found' w' HP'. by apply ensures_ret.
Qed.

(** [collectByGenre] returns the values of [found] in some order. *)
Lemma collectByGenre_inv (P : gmap string Rec -> Prop) gen limit w :
  (forall found id md w,
     P found -> id <> "" -> found !! id = None -> fetched id md w ->
     genre_match gen md = true -> P (<[id := md]> found)) ->
  P ∅ ->
  ensures (collectByGenre gen limit) w
    (fun out _ => exists found, P found /\ out ≡ₚ (map_to_list found).*2).
Proof.
  intros Hins Hempty. unfold collectByGenre.
  apply ensures_bind. eapply ensures_mono; [by apply collect_found_inv|].
  intros found w' HP. simpl.
  apply ensures_bind, ensures_call, ensures_ret.
  exists found. split; [done|]. by rewrite range_map_perm.
Qed.

Lemma collectByGenre_returns gen limit w :
  ensures (collectByGenre gen limit) w (fun _ _ => True).
Proof.
  eapply ensures_mono; [apply (collectByGenre_inv (fun _ => True))|]; done.
Qed.


Lemma room_left_within limit found : room_left limit found -> within limit found.
Proof. unfold room_left, within. size_lia. Qed.

Lemma collect_items_size gen limit items found w :
  room_left limit found ->
  ensures (forRange (collect_item gen limit) items found) w
    (fun found' _ => within limit found').
Proof.
  apply (ensures_forRange _ (fun found' _ => room_left limit found')).
  - intros ??. apply room_left_within.
  - clear found w. intros it found w _ Hroom.
    destruct (collect_item_run gen limit it found w)
      as (found' & brk & w' & Hrun & [[-> ->]|(md & _ & Hfresh & _ & _ & -> & ->)]);
      apply ensures_run; do 2 eexists; (split; [done|]); simpl; [done|].
    unfold room_left, within in *.
    rewrite map_size_insert_None by done. clear Hrun.
    case_bool_decide; size_lia.
Qed.

Lemma collect_found_size gen limit w :
  ensures (collect_found gen limit) w (fun found _ => within limit found).
Proof.
  unfold collect_found.
  apply (ensures_forRange _ (fun found' _ => room_left limit found')).
  - intros ??. apply room_left_within.
  - intros k found w' _ Hroom. unfold collect_keyword.
    destruct (searchByKeyword_run k 1 w') as (items & Hrun).
    apply ensures_bind, ensures_run. do 2 eexists. split; [done|].
    destruct items as [items|]; [|by apply ensures_ret].
    apply ensures_bind. eapply ensures_mono; [by apply collect_items_size|].
    intros found' w'' Hin. apply ensures_ret. simpl.
    case_bool_decide; [done|]. right. size_lia.
  - by left.
Qed.

Lemma collectByGenre_size gen limit w :
  ensures (collectByGenre gen limit) w
    (fun out _ => Z.of_nat (length out) <= Z.max limit 1).
Proof.
  unfold collectByGenre. apply ensures_bind.
  eapply ensures_mono; [apply collect_found_size|]. intros found w' Hin.
  apply ensures_bind, ensures_call, ensures_ret. simpl.
  rewrite length_fmap, range_map_perm. by rewrite length_map_to_list.
Qed.

(** The test of line 179 spelled out. *)
Lemma genre_match_spec gen md :
  genre_match gen md = true <->
  exists g, md !! "Genre" = Some (VString g) /\
            Contains (ToLower g) (ToLower gen) = true.
Proof.
  unfold genre_match, str_field. split.
  - destruct (md !! "Genre") as [[]|]; try done. eauto.
  - by intros (g & -> & ?).
Qed.





End Collector.

(* ===================================================================== *)
(** ** The ranker: results *)
(* ===================================================================== *)

Section RankerFacts.
Context `{GoLib}.
Implicit Types (l out : list Rec) (m : Rec).


Lemma ratingVal_no_rating m : no_rating m -> ratingVal m = f64_zero.
Proof.
  unfold no_rating, ratingVal. destruct (str_field m "imdbRating") as [r|]; [|done].
  intros [->| [->|Hp]]; [done..|].
  rewrite Hp. by destruct (_ && _).
Qed.

Lemma StronglySorted_weaken {A} (R R' : A -> A -> Prop) (l : list A) :
  (forall x y, x ∈ l -> y ∈ l -> R x y -> R' x y) ->
  StronglySorted R l -> StronglySorted R' l.
Proof.
  intros HR Hs. induction Hs as [|x l Hs IH Hall]; constructor.
  - apply IH. intros ?????. apply HR; by try right.
  - rewrite Forall_forall in Hall. apply Forall_forall. intros y Hy.
    apply HR; [left|by right|by apply Hall].
Qed.

Lemma sort_Slice_by_rating l :
  (forall m, m ∈ l -> is_nan (ratingVal m) = false) ->
  StronglySorted by_rating (sort_Slice rating_less l).
Proof.
  intros Hnan.
  apply (StronglySorted_weaken (fun a b => rating_less b a = false)).
  - intros a b Ha Hb Hab. rewrite sort_Slice_perm in Ha, Hb.
    apply SFltb_false_SFleb; auto.
  - apply sort_Slice_sorted; unfold rating_less, f64_gt.
    + intros. apply SFltb_irrefl.
    + intros x y z _ _ _ Hxy Hyz. by apply (SFltb_trans _ (ratingVal y)).
    + intros x y z Hx Hy Hz Hxy Hyz.
      apply (SFltb_negtrans _ (ratingVal y)); auto.
Qed.

Lemma topByRating_run l n :
  0 <= n ->
  topByRating l n = Ret (take (Z.to_nat n) (sort_Slice rating_less l)).
Proof.
  intros Hn. unfold topByRating.
  destruct (Z.gtb_spec (Z.of_nat (length (sort_Slice rating_less l))) n) as [Hlen|Hlen].
  - destruct (Z.ltb_spec n 0); [lia|done].
  - rewrite firstn_all2; [done|lia].
Qed.

End RankerFacts.

(* ===================================================================== *)
(** ** The orchestrator: what every run keeps true *)
(* ===================================================================== *)

Section Orchestrator.
Context `{GoLib} {World : Type} `{!Effects World}.
Implicit Types (w : World) (st : Picks) (m seed : Rec) (base : gmap string bool).


Lemma seen_at_insert (seen : gmap string bool) id id' :
  seen_at (<[id := true]> seen) id' = bool_decide (id = id') || seen_at seen id'.
Proof.
  unfold seen_at. rewrite lookup_insert. by repeat case_decide; case_bool_decide.
Qed.

Lemma pick_run base m st w :
  acc_open base st ->
  exists st' brk,
    pick m st w = (Ret (st', brk), w) /\
    if brk then acc_ok base st' else acc_open base st'.
Proof.
  intros [Hok Hlen]. unfold pick. fold (imdb m).
  destruct (imdb m) as [id|] eqn:Hid; [|by exists st, false].
  destruct (seen_at st.1 id) eqn:Hseen; simpl; [by exists st, false|].
  do 2 eexists. split; [done|].
  assert (acc_ok base (<[id := true]> st.1, st.2 ++ [m])) as Hok'.
  { destruct Hok as [Hl Hnd Hids Hbase]. rewrite Forall_forall in Hids.
    split; simpl.
    - rewrite length_app. simpl. lia.
    - rewrite fmap_app. simpl. rewrite Hid.
      apply NoDup_app. split; [done|]. split; [|apply NoDup_singleton].
      intros o Ho Ho'. apply list_elem_of_singleton in Ho' as ->.
      apply list_elem_of_fmap in Ho as (m' & Hm' & Hin).
      destruct (Hids m' Hin) as (id' & Hid' & Hs' & _). congruence.
    - apply Forall_app. split.
      + apply Forall_forall. intros m' Hin.
        destruct (Hids m' Hin) as (id' & Hid' & Hs' & Hb').
        exists id'. rewrite seen_at_insert, Hs'. by rewrite orb_true_r.
      + constructor; [|done]. exists id. rewrite seen_at_insert.
        split; [done|]. split; [by rewrite bool_decide_eq_true_2|].
        destruct (seen_at base id) eqn:Hb; [|done].
        apply Hbase in Hb. congruence.
    - intros id' Hb. rewrite seen_at_insert. apply Hbase in Hb.
      rewrite Hb. by rewrite orb_true_r. }
  case_bool_decide as Hfull; [done|]. split; [done|]. simpl in *. lia.
Qed.

(** The loop over the candidates of one term; it sends nothing upstream. *)
Lemma pick_loop base cands st w :
  acc_open base st ->
  ensures (forRange pick cands st) w (fun st' w' => acc_ok base st' /\ w' = w).
Proof.
  intros Hopen.
  apply (ensures_forRange pick (fun st' w' => acc_open base st' /\ w' = w)).
  - by intros st' w' [[??] ->].
  - intros m st' w' _ [Hopen' ->].
    destruct (pick_run base m st' w Hopen') as (st'' & brk & Hrun & Hst'').
    apply ensures_run. do 2 eexists. split; [done|]. by destruct brk.
  - done.
Qed.

(** One term of a seed field: collect, rank, pick. *)
Lemma recommend_term_run base term st w :
  acc_open base st ->
  ensures (recommend_term term st) w
    (fun r _ => if r.2 then acc_ok base r.1 else acc_open base r.1).
Proof.
  intros Hopen. unfold recommend_term.
  apply ensures_bind.
  eapply ensures_mono; [apply collectByGenre_returns|]. intros found w' _.
  apply ensures_bind. rewrite topByRating_run by done. apply ensures_lift.
  apply ensures_bind.
  eapply ensures_mono; [by apply (pick_loop base)|]. intros st' ? [Hok ->].
  apply ensures_ret. simpl. case_bool_decide; [done|]. split; [done|lia].
Qed.

Lemma phase_run base field seed st w :
  acc_open base st ->
  ensures (phase field seed st) w (fun st' _ => acc_ok base st').
Proof.
  intros Hopen. unfold phase.
  destruct (str_field seed field) as [g|]; [|by apply ensures_ret; destruct Hopen].
  apply (ensures_forRange recommend_term (fun st' _ => acc_open base st')).
  - by intros ?? [??].
  - intros term st' w' _ Hopen'. by apply recommend_term_run.
  - done.
Qed.

Lemma director_phase_run base seed st w :
  acc_ok base st ->
  ensures (director_phase seed st) w (fun st' _ => acc_ok base st').
Proof.
  intros Hok. unfold director_phase.
  case_bool_decide; [by apply phase_run|by apply ensures_ret].
Qed.

Lemma actor_phase_run base seed st w :
  acc_ok base st ->
  ensures (actor_phase seed st) w (fun st' _ => acc_ok base st').
Proof.
  intros Hok. unfold actor_phase.
  case_bool_decide; [by apply phase_run|by apply ensures_ret].
Qed.

Lemma acc_open_init seed : acc_open (seen_init seed) (seen_init seed, []).
Proof. split; [split; simpl; [done|constructor|constructor|done]|done]. Qed.

(** The three phases leave a state that is [acc_ok], and the truncation
    that ends the handler has nothing to cut. *)
Lemma recommend_from_run seed w :
  ensures (recommend_from seed) w
    (fun result _ => exists seen, acc_ok (seen_init seed) (seen, result)).
Proof.
  unfold recommend_from, genre_phase.
  apply ensures_bind.
  eapply ensures_mono; [apply phase_run, acc_open_init|]. intros st1 w1 Hok1.
  apply ensures_bind.
  eapply ensures_mono; [by apply (director_phase_run (seen_init seed))|].
  intros st2 w2 Hok2.
  apply ensures_bind.
  eapply ensures_mono; [by apply (actor_phase_run (seen_init seed))|].
  intros [seen result] w3 Hok3.
  pose proof (acc_len _ _ Hok3). simpl in *.
  case_bool_decide; [lia|]. apply ensures_ret. by exists seen.
Qed.

(** ** The resolver *)

Lemma resolve_page_returns title p r w :
  ensures (resolve_page title p r) w (fun _ _ => True).
Proof.
  unfold resolve_page.
  destruct (searchByKeyword_run title p w) as (items & Hrun).
  apply ensures_bind, ensures_run. do 2 eexists. split; [done|].
  destruct items as [items|]; [|by apply ensures_ret].
  apply ensures_bind.
  eapply ensures_mono; [|by intros; apply ensures_ret].
  apply (ensures_forRange_inv _ (fun _ _ => True)); [|done].
  intros it r' w' _ _. unfold resolve_item.
  case_bool_decide; [by apply ensures_ret|].
  destruct (getDetailByID_run (ImdbID it) w') as (o & Hrun' & _).
  apply ensures_bind, ensures_run. do 2 eexists. split; [done|].
  by destruct o; apply ensures_ret.
Qed.

Lemma getDetailByTitle_returns title w :
  ensures (getDetailByTitle title) w (fun _ _ => True).
Proof.
  assert (forall w', ensures (forRange (resolve_page title) [1; 2] None) w'
                       (fun _ _ => True)) as Hsearch.
  { intros w'. apply (ensures_forRange_inv _ (fun _ _ => True)); [|done].
    intros. apply resolve_page_returns. }
  unfold getDetailByTitle. apply ensures_bind, ensures_call.
  destruct (fetchJSON_title title w).1 as [md|]; [|done].
  destruct (field_is md "Response" "True"); [by apply ensures_ret|done].
Qed.

(** A direct hit ends the resolver at once. *)
Lemma getDetailByTitle_direct title md w :
  (fetchJSON_title title w).1 = Some md ->
  field_is md "Response" "True" = true ->
  getDetailByTitle title w = (Ret (Some md), (fetchJSON_title title w).2).
Proof.
  intros Hfetch Htrue. unfold getDetailByTitle, bind, call.
  destruct (fetchJSON_title title w) as [r w']. simpl in *. subst r.
  by rewrite Htrue.
Qed.

End Orchestrator.

(* ===================================================================== *)
(** * The properties of the specification *)
(* ===================================================================== *)

(** ** Ranker *)

(** C3, as amended.  For every candidate list and every count [n] that is
    not negative, [topByRating] returns; the sequence it returns has at most
    [n] elements, which are drawn from the input list (each as often as it
    occurs there at most); when no candidate's rating parses to NaN, the
    sequence is ordered by non-increasing parsed rating.  A rating that is
    missing, not a string, empty, ["N/A"] or refused by the parser counts
    as 0. *)
Theorem topByRating_ranked `{GoLib} (l : list Rec) (n : Z) :
  0 <= n ->
  exists out,
    topByRating l n = Ret out /\
    Z.of_nat (length out) <= n /\
    out ⊆+ l /\
    ((forall m, m ∈ l -> is_nan (ratingVal m) = false) ->
     StronglySorted by_rating out) /\
    (forall m, no_rating m -> ratingVal m = f64_zero).
Proof.
  intros Hn. exists (take (Z.to_nat n) (sort_Slice rating_less l)).
  split; [by apply topByRating_run|]. split; [rewrite length_take; lia|].
  split; [|split].
  - rewrite <- (sort_Slice_perm _ rating_less l) at 2.
    apply sublist_submseteq, sublist_take.
  - intros Hnan. apply sort_Slice_by_rating in Hnan.
    rewrite <- (take_drop (Z.to_nat n)) in Hnan.
    by apply StronglySorted_app_1_l in Hnan.
  - apply ratingVal_no_rating.
Qed.

Lemma topByRating_ranked_witness :
  exists out,
    @topByRating ascii_lib Sample.ranked 3 = Ret out /\
    Z.of_nat (length out) <= 3 /\
    out ⊆+ Sample.ranked /\
    StronglySorted (@by_rating ascii_lib) out.
Proof.
  destruct (@topByRating_ranked ascii_lib Sample.ranked 3)
    as (out & Hrun & Hlen & Hsub & Hsorted & _); [lia|].
  exists out. repeat (split; [assumption|]). apply Hsorted.
  apply Forall_forall. unfold Sample.ranked.
  repeat (apply Forall_cons_2; [reflexivity|]). apply Forall_nil_2.
Defined.

(** C3 as stated fails twice: a rating that parses to NaN leaves the
    sequence out of order, and a negative count makes [topByRating]
    panic. *)
Lemma topByRating_unranked :
  @topByRating ascii_lib Sample.rated 3 = Ret Sample.rated /\
  ~ StronglySorted (@by_rating ascii_lib) Sample.rated /\
  @topByRating ascii_lib [] (-1) = Panic.
Proof.
  split; [reflexivity|]. split; [|reflexivity].
  intros Hs. apply StronglySorted_inv in Hs as [_ Hall].
  apply Forall_cons in Hall as [Hnan _]. vm_compute in Hnan. discriminate.
Qed.

(** ** Collector *)


Section CollectorClaims.
Context `{GoLib} {World : Type} `{!Effects World}.
Implicit Types (w : World) (found : gmap string Rec) (md : Rec).

Lemma checked_insert gen found id md w :
  checked found -> id <> "" -> found !! id = None -> fetched id md w ->
  genre_match gen md = true -> checked (<[id := md]> found).
Proof.
  intros Hok Hid _ [_ Hresp] _ id' md'. rewrite lookup_insert.
  case_decide as Hcase; [|apply Hok]. intros [= <-]. by subst id'.
Qed.

(** C6, as amended.  Every record in the collector's candidate set is
    stored under a non-empty search-hit id and has a [Response] other than
    ["False"]: each pass of the inner loop keeps this true of [found], so it
    holds after every insertion and of the set the scan ends with, for
    every provider behaviour. *)
Theorem found_entries_checked gen limit :
  (forall it found w,
     checked found ->
     ensures (collect_item gen limit it found) w (fun r _ => checked r.1)) /\
  (forall w, ensures (collect_found gen limit) w (fun found _ => checked found)).
Proof.
  split.
  - intros it found w Hok.
    destruct (collect_item_run gen limit it found w)
      as (found' & brk & w' & Hrun & [[-> ->]|(md & ? & ? & ? & ? & -> & ->)]);
      apply ensures_run; do 2 eexists; (split; [done|]); simpl; [done|].
    by eapply checked_insert.
  - intros w. apply collect_found_inv; [|done].
    intros found id md w'. by apply checked_insert.
Qed.

(** C5, as amended.  When the provider echoes ids, the sequence returned by
    [collectByGenre] never contains two records with the same [imdbID],
    whatever the filter and the limit. *)
Theorem collectByGenre_distinct_ids gen limit w :
  echoes_ids ->
  ensures (collectByGenre gen limit) w
    (fun out _ => NoDup ((fun md : Rec => md !! "imdbID") <$> out)).
Proof.
  intros Hecho.
  eapply ensures_mono;
    [apply (collectByGenre_inv
              (fun found => forall id md, found !! id = Some md ->
                                          md !! "imdbID" = Some (VString id)))|].
  - intros found id md w' Hall _ _ [Hfetch _] _ id' md'. rewrite lookup_insert.
    case_decide as Hcase; [|apply Hall]. intros [= <-]. subst id'.
    by eapply Hecho.
  - done.
  - intros out _ (found & Hall & ->).
    assert ((fun md : Rec => md !! "imdbID") <$> (map_to_list found).*2 =
            (fun id => Some (VString id)) <$> (map_to_list found).*1) as ->.
    { rewrite <- !list_fmap_compose. apply list_fmap_ext.
      intros i [id md] Hi. simpl. apply Hall.
      by apply elem_of_map_to_list, list_elem_of_lookup_2 with i. }
    apply NoDup_fmap_2; [by intros ?? [=]|]. apply NoDup_fst_map_to_list.
Qed.


End CollectorClaims.

(** ** Resolver and orchestrator *)

Section OrchestratorClaims.
Context `{GoLib} {World : Type} `{!Effects World}.
Implicit Types (w : World) (st : Picks) (m seed md : Rec).


(** C7.  When the direct fetch by title answers with a record whose
    [Response] is ["True"], [getDetailByTitle] returns that record and
    leaves the world as the direct fetch left it: no search and no fetch by
    id is sent.  So two providers that agree on the direct fetch get the
    same record, however they differ otherwise. *)
Theorem getDetailByTitle_direct_hit
    {World' : Type} `{!Effects World'} title md w (w' : World') :
  (fetchJSON_title title w).1 = Some md ->
  (fetchJSON_title title w').1 = Some md ->
  field_is md "Response" "True" = true ->
  getDetailByTitle title w = (Ret (Some md), (fetchJSON_title title w).2) /\
  getDetailByTitle title w' = (Ret (Some md), (fetchJSON_title title w').2).
Proof. intros. split; by apply getDetailByTitle_direct. Qed.


Lemma acc_ok_ids base seen result m :
  acc_ok base (seen, result) -> m ∈ result ->
  exists id, m !! "imdbID" = Some (VString id) /\ seen_at base id = false.
Proof.
  intros Hok Hm. pose proof (acc_ids _ _ Hok) as Hids. simpl in Hids.
  rewrite Forall_forall in Hids. destruct (Hids m Hm) as (id & Hid & _ & Hb).
  exists id. split; [|done]. unfold imdb, str_field in Hid.
  by destruct (m !! "imdbID") as [[]|]; simplify_eq.
Qed.

Lemma acc_ok_NoDup base seen result :
  acc_ok base (seen, result) -> NoDup (ids result).
Proof.
  intros Hok. pose proof (acc_nodup _ _ Hok) as Hnd. simpl in Hnd.
  eapply (NoDup_fmap_1 (fun v => match v with Some (VString s) => Some s | _ => None end)).
  unfold ids. rewrite <- list_fmap_compose. exact Hnd.
Qed.

(** The response shows the [imdbID] of each recommendation as it is. *)
Lemma ids_recommendation result :
  Forall (fun m : Rec => is_Some (m !! "imdbID")) result ->
  ids (recommendation <$> result) = ids result.
Proof.
  intros Hall. unfold ids. rewrite <- list_fmap_compose.
  apply Forall_fmap_ext_1. eapply Forall_impl; [exact Hall|].
  intros m [v Hv]. simpl.
  change (recommendation m !! "imdbID") with (Some (field m "imdbID")).
  unfold field. by rewrite Hv.
Qed.

(** C9.  The recommendations have pairwise distinct [imdbID]s, each of
    them a string, in the list that [recommend] returns and in the
    response built from it: one [seen] map runs through the three
    phases. *)
Theorem recommend_distinct_ids fav w :
  ensures (recommend fav) w
    (fun r _ =>
       match r with
       | Some (seed, result) =>
           NoDup (ids result) /\
           Forall (fun m => exists id, m !! "imdbID" = Some (VString id)) result /\
           NoDup (ids (recommendation <$> result))
       | None => True
       end).
Proof.
  unfold recommend. apply ensures_bind.
  eapply ensures_mono; [apply getDetailByTitle_returns|].
  intros [seed|] w' _; [|by apply ensures_ret].
  apply ensures_bind. eapply ensures_mono; [apply recommend_from_run|].
  intros result w'' (seen & Hok). apply ensures_ret.
  assert (Forall (fun m : Rec => exists id, m !! "imdbID" = Some (VString id)) result)
    as Hids.
  { apply Forall_forall. intros m Hm.
    destruct (acc_ok_ids _ _ _ _ Hok Hm) as (id & ? & _). by exists id. }
  split; [by eapply acc_ok_NoDup|]. split; [done|].
  rewrite ids_recommendation; [by eapply acc_ok_NoDup|].
  eapply Forall_impl; [exact Hids|]. intros m (id & ->). by eexists.
Qed.

Lemma seen_init_seed seed id :
  seed !! "imdbID" = Some (VString id) -> id <> "" ->
  seen_at (seen_init seed) id = true.
Proof.
  intros Hid Hne. unfold seen_init, str_field. rewrite Hid.
  rewrite bool_decide_eq_true_2 by done.
  unfold seen_at. by rewrite lookup_insert_eq.
Qed.

(** C2, as amended.  When the seed resolves, the recommendations are at
    most 20, and none of them has the seed's [imdbID], unless that is the
    empty string. *)
Theorem recommend_bounded_without_seed fav w :
  ensures (recommend fav) w
    (fun r _ =>
       match r with
       | Some (seed, result) =>
           Z.of_nat (length result) <= 20 /\
           (seed !! "imdbID" <> Some (VString "") ->
            Forall (fun m => m !! "imdbID" <> seed !! "imdbID") result)
       | None => True
       end).
Proof.
  unfold recommend. apply ensures_bind.
  eapply ensures_mono; [apply getDetailByTitle_returns|].
  intros [seed|] w' _; [|by apply ensures_ret].
  apply ensures_bind. eapply ensures_mono; [apply recommend_from_run|].
  intros result w'' (seen & Hok). apply ensures_ret.
  split; [apply (acc_len _ _ Hok)|].
  intros Hseed. apply Forall_forall. intros m Hm.
  destruct (acc_ok_ids _ _ _ _ Hok Hm) as (id & Hid & Hbase).
  rewrite Hid. intros Heq. symmetry in Heq.
  assert (id <> "") as Hne by (intros ->; done).
  by rewrite (seen_init_seed seed id Heq Hne) in Hbase.
Qed.

Lemma phase_gate seed st w :
  Z.of_nat (length st.2) >= perLevel ->
  director_phase seed st w = (Ret st, w) /\ actor_phase seed st w = (Ret st, w).
Proof.
  intros Hfull. unfold director_phase, actor_phase.
  by rewrite bool_decide_eq_false_2 by lia.
Qed.

(** The end of [recommend_from] once the three phases are over. *)
Lemma recommend_from_end seed w st1 w1 st2 w2 st3 w3 :
  genre_phase seed (seen_init seed, []) w = (Ret st1, w1) ->
  director_phase seed st1 w1 = (Ret st2, w2) ->
  actor_phase seed st2 w2 = (Ret st3, w3) ->
  Z.of_nat (length st3.2) <= perLevel ->
  recommend_from seed w = (Ret st3.2, w3).
Proof.
  intros Hg Hd Ha Hlen. unfold recommend_from.
  rewrite (run_bind _ _ _ _ _ Hg), (run_bind _ _ _ _ _ Hd), (run_bind _ _ _ _ _ Ha).
  by rewrite bool_decide_eq_false_2 by lia.
Qed.

(** C4.  A phase that finds 20 results or more already there does nothing:
    the loop of the director phase, and that of the actor phase, is not
    entered.  So when the genre phase ends with 20 results these are the
    final list, and the world is as the genre phase left it; and when the
    director phase ends with 20 results, the same holds of the actor
    phase. *)
Theorem later_phases_gated seed w :
  (forall st w',
     Z.of_nat (length st.2) >= perLevel ->
     director_phase seed st w' = (Ret st, w') /\
     actor_phase seed st w' = (Ret st, w')) /\
  ensures (genre_phase seed (seen_init seed, [])) w (fun st1 w1 =>
    (Z.of_nat (length st1.2) >= perLevel ->
     recommend_from seed w = (Ret st1.2, w1)) /\
    ensures (director_phase seed st1) w1 (fun st2 w2 =>
      Z.of_nat (length st2.2) >= perLevel ->
      recommend_from seed w = (Ret st2.2, w2))).
Proof.
  split; [intros; by apply phase_gate|].
  pose proof (phase_run (seen_init seed) "Genre" seed _ w (acc_open_init seed)) as Hg.
  apply ensures_run in Hg as (st1 & w1 & Hg & Hok1).
  apply ensures_run. exists st1, w1. split; [done|]. split.
  - intros Hfull. destruct (phase_gate seed st1 w1 Hfull) as [Hd Ha].
    eapply recommend_from_end; [done..|]. apply (acc_len _ _ Hok1).
  - pose proof (director_phase_run (seen_init seed) seed st1 w1 Hok1) as Hd.
    apply ensures_run in Hd as (st2 & w2 & Hd & Hok2).
    apply ensures_run. exists st2, w2. split; [done|].
    intros Hfull. destruct (phase_gate seed st2 w2 Hfull) as [_ Ha].
    eapply recommend_from_end; [done..|]. apply (acc_len _ _ Hok2).
Qed.

Lemma recommend_from_no_fields seed w :
  str_field seed "Genre" = None -> str_field seed "Director" = None ->
  str_field seed "Actors" = None ->
  recommend_from seed w = (Ret [], w).
Proof.
  intros Hg Hd Ha.
  unfold recommend_from, genre_phase, director_phase, actor_phase, phase.
  by rewrite Hg, Hd, Ha.
Qed.

(** C8.  When the favorite title resolves, [recommend] returns the seed
    with a list of recommendations: it does not panic and it does not
    report NotFound; for a seed whose Genre, Director and Actors are
    missing or no strings the list is empty and nothing more is sent
    upstream.  [recommend] reports NotFound exactly when the resolver
    does, and the handler answers 404 only then. *)
Theorem recommend_succeeds_when_seed_resolves fav w :
  ensures (getDetailByTitle fav) w (fun r w1 =>
    match r with
    | None => recommend fav w = (Ret None, w1)
    | Some seed =>
        (exists result w', recommend fav w = (Ret (Some (seed, result)), w')) /\
        (str_field seed "Genre" = None -> str_field seed "Director" = None ->
         str_field seed "Actors" = None ->
         recommend fav w = (Ret (Some (seed, [])), w1))
    end) /\
  (fav <> "" ->
   ensures (recommendHandler fav) w (fun resp _ =>
     match resp with
     | Status200 _ _ => exists seed, (getDetailByTitle fav w).1 = Ret (Some seed)
     | Status404 _ => (getDetailByTitle fav w).1 = Ret None
     | Status400 _ => False
     end)).
Proof.
  pose proof (getDetailByTitle_returns fav w) as Hres.
  apply ensures_run in Hres as (r & w1 & Hres & _).
  assert (match r with
          | None => recommend fav w = (Ret None, w1)
          | Some seed =>
              (exists result w', recommend fav w = (Ret (Some (seed, result)), w')) /\
              (str_field seed "Genre" = None -> str_field seed "Director" = None ->
               str_field seed "Actors" = None ->
               recommend fav w = (Ret (Some (seed, [])), w1))
          end) as Hrec.
  { unfold recommend. rewrite (run_bind _ _ _ _ _ Hres).
    destruct r as [seed|]; [|done]. split.
    - pose proof (recommend_from_run seed w1) as Hfrom.
      apply ensures_run in Hfrom as (result & w' & Hfrom & _).
      exists result, w'. by rewrite (run_bind _ _ _ _ _ Hfrom).
    - intros Hg Hd Ha.
      by rewrite (run_bind _ _ _ _ _ (recommend_from_no_fields seed w1 Hg Hd Ha)). }
  split; [apply ensures_run; by exists r, w1|].
  intros Hfav. unfold recommendHandler. rewrite bool_decide_eq_false_2 by done.
  apply ensures_bind, ensures_run. rewrite Hres. simpl.
  destruct r as [seed|].
  - destruct Hrec as [(result & w' & Hrec) _].
    exists (Some (seed, result)), w'. split; [done|]. apply ensures_ret. by exists seed.
  - exists None, w1. split; [done|]. by apply ensures_ret.
Qed.

(** The seed that [recommend] returns is the record the resolver found. *)
Lemma recommend_seed fav w seed w1 :
  getDetailByTitle fav w = (Ret (Some seed), w1) ->
  ensures (recommend fav) w (fun r _ => exists result, r = Some (seed, result)).
Proof.
  intros Hres. unfold recommend. apply ensures_bind, ensures_run.
  exists (Some seed), w1. split; [done|].
  apply ensures_bind. eapply ensures_mono; [apply recommend_from_run|].
  intros result w' _. apply ensures_ret. by exists result.
Qed.

End OrchestratorClaims.

(* ===================================================================== *)
(** * The properties at work on the sample catalogs *)
(* ===================================================================== *)

Section Runs.
Import Sample.
#[local] Existing Instance ascii_lib.

Example ratingVal_reads :
  ratingVal <$> [movie "tt0000001" "Drama" "8.5"; movie "tt0000002" "Drama" "N/A";
                 movie "tt0000003" "Drama" ""; movie "tt0000004" "Drama" "8,5";
                 rec [("imdbRating", VNumber f64_zero)]; rec []] =
  [S754_finite false 4785074604081152 (-49); f64_zero; f64_zero; f64_zero;
   f64_zero; f64_zero].
Proof. reflexivity. Qed.

Example terms_of_a_field :
  TrimSpace <$> Split "Action, Sci-Fi," "," = ["Action"; "Sci-Fi"; ""].
Proof. reflexivity. Qed.

Example topByRating_ranks :
  topByRating ranked 3 =
  Ret [movie "tt0000002" "Action" "9.1"; movie "tt0000004" "Action" "8.5";
       movie "tt0000001" "Action" "7.9"].
Proof. reflexivity. Qed.

(** The collector sends every keyword, skips the hit without id and the id
    it has stored, and goes on after a fetch that fails. *)
Example collectByGenre_scifi :
  @collectByGenre _ Log (scripted catalog) "sci-fi" 20 [] =
    (Ret [inception; movie "tt0133093" "Action, Sci-Fi" "8.7";
          movie "tt0088763" "Adventure, Comedy, Sci-Fi" "N/A"],
     [GetSearch "the" 1; GetID "tt0133093"; GetID "tt0109830";
      GetID "tt1375666"; GetID "tt9999999"; GetSearch "a" 1;
      GetSearch "man" 1; GetSearch "love" 1; GetSearch "star" 1;
      GetSearch "dark" 1; GetID "tt0468569"; GetID "tt0088763";
      GetSearch "king" 1; GetSearch "matrix" 1; GetSearch "avengers" 1]).
Proof. reflexivity. Qed.

(** The scan stops at the insertion that reaches the limit. *)
Example collectByGenre_limit_1 :
  @collectByGenre _ Log (scripted catalog) "sci-fi" 1 [] =
    (Ret [movie "tt0133093" "Action, Sci-Fi" "8.7"],
     [GetSearch "the" 1; GetID "tt0133093"]).
Proof. reflexivity. Qed.

Example recommend_inception :
  (@recommend _ Log (scripted catalog) "Inception" []).1 =
    Ret (Some (inception,
               [movie "tt0468569" "Action, Crime, Drama" "9.0";
                movie "tt0133093" "Action, Sci-Fi" "8.7";
                movie "tt0088763" "Adventure, Comedy, Sci-Fi" "N/A"])).
Proof. reflexivity. Qed.

Example recommendHandler_not_found :
  @recommendHandler _ Log (scripted catalog) "Memento" [] =
    (Ret (Status404 "favorite movie not found"),
     [GetTitle "Memento"; GetSearch "Memento" 1; GetSearch "Memento" 2]).
Proof. reflexivity. Qed.

Example recommendHandler_no_title :
  @recommendHandler _ Log (scripted catalog) "" [] =
    (Ret (Status400 "missing favorite_movie"), []).
Proof. reflexivity. Qed.

Lemma catalog_echoes_ids : @echoes_ids Log (scripted catalog).
Proof.
  intros id md w Hf.
  change ((list_to_map details : gmap string Rec) !! id = Some md) in Hf.
  apply elem_of_list_to_map_2 in Hf. unfold details in Hf.
  repeat (apply elem_of_cons in Hf as [[= -> ->]|Hf]; [done|]).
  by apply elem_of_nil in Hf.
Qed.

Lemma collectByGenre_distinct_ids_witness :
  ensures (@collectByGenre _ Log (scripted catalog) "sci-fi" 20) []
    (fun out _ => NoDup (ids out)).
Proof.
  apply (@collectByGenre_distinct_ids _ Log (scripted catalog) "sci-fi" 20 []).
  apply catalog_echoes_ids.
Defined.

(** C5 as stated fails: the collector tells records apart by the id of the
    search hit, and a provider may answer two ids with one record. *)
Lemma collectByGenre_repeats_id :
  let twin := movie "tt0000009" "Action" "7.1" in
  (@collectByGenre _ Log (scripted alias_catalog) "action" 20 []).1 = Ret [twin; twin] /\
  ~ NoDup (ids [twin; twin]).
Proof.
  split; [reflexivity|].
  intros Hnd. apply NoDup_cons in Hnd as [Hnotin _]. apply Hnotin. left.
Qed.

Lemma checked_empty : checked ∅.
Proof. intros id md. by rewrite lookup_empty. Qed.

Lemma found_entries_checked_witness :
  checked ∅ /\
  ensures (@collect_item _ Log (scripted catalog) "action" 20 (hit "tt0133093") ∅) []
    (fun r _ => checked r.1).
Proof.
  split; [apply checked_empty|].
  apply (proj1 (@found_entries_checked _ Log (scripted catalog) "action" 20)).
  apply checked_empty.
Defined.

(** C6 as stated fails: the collector stores a record that has no [imdbID]
    and whose [Response] is not ["True"]. *)
Lemma found_holds_unchecked_record :
  (@collect_found _ Log (scripted odd_catalog) "action" 20 []).1 =
    Ret {["tt0000001" := odd]} /\
  ~ has_id odd /\ ~ response_true_or_absent odd.
Proof.
  split; [reflexivity|]. split.
  - intros (id & Hid & _). vm_compute in Hid. discriminate.
  - intros [Hr|Hr]; vm_compute in Hr; discriminate.
Qed.



Lemma getDetailByTitle_direct_hit_witness :
  @getDetailByTitle Log (scripted catalog) "Inception" [] =
    (Ret (Some inception), [GetTitle "Inception"]) /\
  @getDetailByTitle Log (scripted bare_catalog) "Inception" [] =
    (Ret (Some inception), [GetTitle "Inception"]).
Proof.
  apply (@getDetailByTitle_direct_hit Log (scripted catalog) Log (scripted bare_catalog)
           "Inception" inception [] []).
  - reflexivity.
  - reflexivity.
  - reflexivity.
Defined.

Lemma inception_resolves :
  @getDetailByTitle Log (scripted catalog) "Inception" [] =
    (Ret (Some inception), [GetTitle "Inception"]).
Proof. apply (@getDetailByTitle_direct Log (scripted catalog)); [done|]. reflexivity. Qed.

Lemma recommend_bounded_without_seed_witness :
  ensures (@recommend _ Log (scripted catalog) "Inception") []
    (fun r _ =>
       match r with
       | Some (seed, result) =>
           Z.of_nat (length result) <= 20 /\
           Forall (fun m : Rec => m !! "imdbID" <> seed !! "imdbID") result
       | None => False
       end).
Proof.
  eapply ensures_mono.
  - apply ensures_and.
    + apply (@recommend_bounded_without_seed _ Log (scripted catalog) "Inception" []).
    + apply (recommend_seed _ _ _ _ inception_resolves).
  - intros r w' [Hr (result & ->)]. destruct Hr as [Hlen Hseed].
    split; [exact Hlen|]. apply Hseed. vm_compute. discriminate.
Defined.

(** C2 as stated fails: a seed whose [imdbID] is the empty string is not
    marked as seen, and a candidate with the same [imdbID] is
    recommended. *)
Lemma recommend_repeats_seed_id :
  (@recommend _ Log (scripted nameless_catalog) "Untitled" []).1 =
    Ret (Some (nameless, [movie "" "Action" "6.0"])) /\
  movie "" "Action" "6.0" !! "imdbID" = nameless !! "imdbID".
Proof. split; reflexivity. Qed.

Lemma later_phases_gated_witness :
  exists st1 w1,
    @genre_phase _ Log (scripted action_catalog) heat (seen_init heat, []) [] =
      (Ret st1, w1) /\
    Z.of_nat (length st1.2) >= perLevel /\
    @recommend_from _ Log (scripted action_catalog) heat [] = (Ret st1.2, w1).
Proof.
  pose proof (proj2 (@later_phases_gated _ Log (scripted action_catalog) heat []))
    as Hgenre.
  pose proof (proj1 (ensures_run _ _ _) Hgenre) as (st1 & w1 & Hrun & Hgate & _).
  exists st1, w1. split; [exact Hrun|].
  assert (Z.of_nat (length st1.2) >= perLevel) as Hfull.
  { apply (f_equal (fun x => match x.1 with
                             | Ret st => Z.of_nat (length st.2) >=? perLevel
                             | Panic => false
                             end)) in Hrun.
    vm_compute in Hrun. destruct st1 as [seen result]. simpl.
    change (true = (Z.of_nat (length result) >=? perLevel)) in Hrun.
    symmetry in Hrun. apply Z.geb_le in Hrun. lia. }
  split; [exact Hfull|]. apply Hgate, Hfull.
Defined.

Lemma blank_resolves :
  @getDetailByTitle Log (scripted bare_catalog) "Blank" [] =
    (Ret (Some blank), [GetTitle "Blank"]).
Proof. apply (@getDetailByTitle_direct Log (scripted bare_catalog)); [done|]. reflexivity. Qed.

Lemma recommend_succeeds_when_seed_resolves_witness :
  @recommend _ Log (scripted bare_catalog) "Blank" [] =
    (Ret (Some (blank, [])), [GetTitle "Blank"]) /\
  ensures (@recommendHandler _ Log (scripted catalog) "Inception") []
    (fun resp _ => match resp with Status200 _ _ => True | _ => False end).
Proof.
  split.
  - pose proof (proj1 (@recommend_succeeds_when_seed_resolves _ Log
                         (scripted bare_catalog) "Blank" [])) as Hres.
    pose proof (proj1 (ensures_run _ _ _) Hres) as (r & w1 & Hrun & Hr).
    rewrite blank_resolves in Hrun. injection Hrun as <- <-.
    apply Hr; reflexivity.
  - pose proof (proj2 (@recommend_succeeds_when_seed_resolves _ Log
                         (scripted catalog) "Inception" [])) as Hhandler.
    eapply ensures_mono; [apply Hhandler; discriminate|].
    intros resp w'. destruct resp; intros Hresp; [exact Hresp| |exact I].
    rewrite inception_resolves in Hresp. discriminate.
Defined.

End Runs.

(* ===================================================================== *)
(** * Further properties of the code *)
(* ===================================================================== *)

(** ** Loops *)

Section MoreLogic.
Context {World : Type}.

(** The loop rule with the elements done so far. *)
Lemma ensures_forRange_done {A S} (body : A -> S -> M World (S * bool))
    (I : list A -> S -> World -> Prop) (Q : S -> World -> Prop) xs :
  (forall s w, I xs s w -> Q s w) ->
  (forall done x rest s w, xs = done ++ x :: rest -> I done s w ->
     ensures (body x s) w
       (fun r w' => if r.2 then Q r.1 w' else I (done ++ [x]) r.1 w')) ->
  forall s w, I [] s w -> ensures (forRange body xs s) w Q.
Proof.
  intros Hend Hbody.
  assert (forall rest done s w,
            xs = done ++ rest -> I done s w -> ensures (forRange body rest s) w Q)
    as Hgen.
  { induction rest as [|x rest IH]; intros done s w Hxs HI; simpl.
    - apply ensures_ret, Hend. by rewrite Hxs, app_nil_r.
    - apply ensures_bind.
      eapply ensures_mono; [by apply (Hbody done x rest)|].
      intros [s' [|]] w' Hs'; simpl in *; [by apply ensures_ret|].
      apply (IH (done ++ [x])); [|done]. by rewrite <- app_assoc. }
  intros s w HI. by apply (Hgen xs []).
Qed.

End MoreLogic.

(** ** Ranker *)

Section RankerMore.
Context `{GoLib}.
Implicit Types (l out : list Rec) (m : Rec).

(** X1.  [topByRating] panics exactly when the count is negative, whatever
    the list. *)
Theorem topByRating_panics_iff l n : topByRating l n = Panic <-> n < 0.
Proof.
  split.
  - intros Hp. destruct (Z.lt_ge_cases n 0) as [|Hn]; [done|].
    by rewrite topByRating_run in Hp.
  - intros Hn. unfold topByRating.
    destruct (Z.gtb_spec (Z.of_nat (length (sort_Slice rating_less l))) n); [|lia].
    by destruct (Z.ltb_spec n 0); [|lia].
Qed.

(** X2.  For a count that is not negative, [topByRating] returns exactly
    [min n (len list)] records; when the count is at least the length of
    the list nothing is dropped: the result is the list, reordered. *)
Theorem topByRating_length l n :
  0 <= n ->
  exists out,
    topByRating l n = Ret out /\
    length out = Nat.min (Z.to_nat n) (length l) /\
    (Z.of_nat (length l) <= n -> out ≡ₚ l).
Proof.
  intros Hn. eexists. split; [by apply topByRating_run|]. split.
  - by rewrite length_take, (Permutation_length (sort_Slice_perm _ rating_less l)).
  - intros Hall. rewrite firstn_all2; [apply sort_Slice_perm|].
    rewrite (Permutation_length (sort_Slice_perm _ rating_less l)). lia.
Qed.

(** X3.  For a count that is not negative and a list in which no rating
    parses to NaN, the records that [topByRating] drops rate no higher than
    the ones it keeps. *)
Theorem topByRating_keeps_best l n :
  0 <= n ->
  (forall m, m ∈ l -> is_nan (ratingVal m) = false) ->
  exists out rest,
    topByRating l n = Ret out /\
    out ++ rest ≡ₚ l /\
    (forall a b, a ∈ out -> b ∈ rest -> by_rating a b).
Proof.
  intros Hn Hnan.
  exists (take (Z.to_nat n) (sort_Slice rating_less l)),
         (drop (Z.to_nat n) (sort_Slice rating_less l)).
  split; [by apply topByRating_run|]. split.
  - rewrite take_drop. apply sort_Slice_perm.
  - apply sort_Slice_by_rating in Hnan.
    rewrite <- (take_drop (Z.to_nat n)) in Hnan.
    intros a b. by apply (StronglySorted_app_1_elem_of _ _ _ _ _ Hnan).
Qed.

End RankerMore.

(** ** Collector *)

Section CollectorMore.
Context `{GoLib} {World : Type} `{!Effects World}.
Implicit Types (w : World) (found : gmap string Rec) (md : Rec).

(** What the scan stores has passed the test of line 179 and the check of
    [getDetailByID]. *)
Lemma collectByGenre_matches gen limit w :
  ensures (collectByGenre gen limit) w
    (fun out _ =>
       Forall (fun md => genre_match gen md = true /\
                         field_is md "Response" "False" = false) out).
Proof.
  eapply ensures_mono;
    [apply (collectByGenre_inv
              (fun found => forall id md, found !! id = Some md ->
                 genre_match gen md = true /\
                 field_is md "Response" "False" = false))|].
  - intros found id md w' Hall _ _ [_ Hresp] Hg id' md'. rewrite lookup_insert.
    case_decide; [|apply Hall]. by intros [= <-].
  - intros id md. by rewrite lookup_empty.
  - intros out _ (found & Hall & ->). apply Forall_forall. intros md Hmd.
    apply list_elem_of_fmap in Hmd as ([id md'] & -> & Hin).
    apply elem_of_map_to_list in Hin. by eapply Hall.
Qed.

(** X4.  Every record that [collectByGenre] returns has a Genre that is a
    string and contains the filter, both in lower case, and none has a
    [Response] of ["False"], whatever the provider answers. *)
Theorem collectByGenre_sound gen limit w :
  ensures (collectByGenre gen limit) w
    (fun out _ =>
       Forall (fun md =>
                 (exists g, md !! "Genre" = Some (VString g) /\
                            Contains (ToLower g) (ToLower gen) = true) /\
                 md !! "Response" <> Some (VString "False")) out).
Proof.
  eapply ensures_mono; [apply collectByGenre_matches|].
  intros out w' Hall. eapply Forall_impl; [exact Hall|].
  intros md [Hg Hr]. split; [by apply genre_match_spec|].
  intros Hresp. unfold field_is, str_field in Hr. by rewrite Hresp in Hr.
Qed.

(** X5.  Whatever the filter, [collectByGenre] returns at most [limit]
    records when [limit] is at least one, and at most one record
    otherwise: the scan ends at the insertion that reaches the limit. *)
Theorem collectByGenre_within_limit gen limit w :
  ensures (collectByGenre gen limit) w
    (fun out _ =>
       (1 <= limit -> Z.of_nat (length out) <= limit) /\
       (limit < 1 -> (length out <= 1)%nat)).
Proof.
  eapply ensures_mono; [apply collectByGenre_size|].
  intros out w' Hlen. simpl in Hlen. lia.
Qed.

(** X6.  When no record that the provider sends for an id passes the test
    for the filter, [collectByGenre] returns the empty list; it does not
    fail. *)
Theorem collectByGenre_nothing_matches gen limit w :
  (forall id md w', fetched id md w' -> genre_match gen md = false) ->
  ensures (collectByGenre gen limit) w (fun out _ => out = []).
Proof.
  intros Hnone.
  eapply ensures_mono; [apply (collectByGenre_inv (fun found => found = ∅))|].
  - intros found id md w' _ _ _ Hf Hg. rewrite (Hnone _ _ _ Hf) in Hg. done.
  - done.
  - intros out _ (found & -> & Hperm). rewrite map_to_list_empty in Hperm.
    by apply Permutation_nil_r in Hperm.
Qed.

End CollectorMore.

(** ** Resolver *)

Section ResolverMore.
Context {World : Type} `{!Effects World}.
Implicit Types (w : World) (md : Rec).

Lemma resolve_item_by_hit it r w :
  ensures (resolve_item it r) w (fun r' _ => by_hit r'.1).
Proof.
  unfold resolve_item. case_bool_decide as Hid; [by apply ensures_ret|].
  destruct (getDetailByID_run (ImdbID it) w) as (o & Hrun & Ho).
  apply ensures_bind, ensures_run. do 2 eexists. split; [done|].
  destruct o as [md|]; apply ensures_ret; simpl; [|done].
  by exists (ImdbID it), w.
Qed.

Lemma resolve_pages_by_hit title pages w :
  ensures (forRange (resolve_page title) pages None) w (fun r _ => by_hit r).
Proof.
  apply (ensures_forRange_inv _ (fun r _ => by_hit r)); [|done].
  intros p r w' _ _. unfold resolve_page.
  destruct (searchByKeyword_run title p w') as (items & Hrun).
  apply ensures_bind, ensures_run. do 2 eexists. split; [done|].
  destruct items as [items|]; [|by apply ensures_ret].
  apply ensures_bind.
  eapply ensures_mono; [|by intros r' w'' Hr'; apply ensures_ret, Hr'].
  apply (ensures_forRange_inv _ (fun r _ => by_hit r)); [|done].
  intros it r' w'' _ _. apply resolve_item_by_hit.
Qed.

(** The record that [getDetailByTitle] returns is the answer to the direct
    fetch, or a record fetched for the id of a search hit. *)
Lemma getDetailByTitle_origin title w :
  ensures (getDetailByTitle title) w
    (fun r _ =>
       match r with
       | Some md =>
           ((fetchJSON_title title w).1 = Some md /\
            field_is md "Response" "True" = true) \/
           (exists id w0, id <> "" /\ fetched id md w0)
       | None => True
       end).
Proof.
  assert (forall w',
            ensures (forRange (resolve_page title) [1; 2] None) w'
              (fun r _ =>
                 match r with
                 | Some md =>
                     ((fetchJSON_title title w).1 = Some md /\
                      field_is md "Response" "True" = true) \/
                     (exists id w0, id <> "" /\ fetched id md w0)
                 | None => True
                 end)) as Hsearch.
  { intros w'. eapply ensures_mono; [apply resolve_pages_by_hit|].
    intros [md|] w'' Hr; [by right|done]. }
  unfold getDetailByTitle. apply ensures_bind, ensures_call.
  destruct (fetchJSON_title title w).1 as [md|] eqn:Hd; [|apply Hsearch].
  destruct (field_is md "Response" "True") eqn:Ht; [|apply Hsearch].
  apply ensures_ret. by left.
Qed.


(** X8.  When the direct fetch gives no record with [Response] ["True"]
    and the provider has no detail record to send for any id,
    [getDetailByTitle] reports not found; it does not fail. *)
Theorem getDetailByTitle_not_found title w :
  (forall md, (fetchJSON_title title w).1 = Some md ->
              field_is md "Response" "True" = false) ->
  (forall id md w', ~ fetched id md w') ->
  ensures (getDetailByTitle title) w (fun r _ => r = None).
Proof.
  intros Hdirect Hid.
  eapply ensures_mono; [apply getDetailByTitle_origin|].
  intros [md|] w' Hr; [|done].
  destruct Hr as [[Hd Ht]|(id & w0 & _ & Hf)].
  - by rewrite (Hdirect md Hd) in Ht.
  - by destruct (Hid id md w0).
Qed.

End ResolverMore.

(** ** Orchestrator *)

Section OrchestratorMore.
Context `{GoLib} {World : Type} `{!Effects World}.
Implicit Types (w : World) (st : Picks) (m seed md : Rec).

Lemma grown_refl P st : grown P st st.
Proof. exists []. by rewrite app_nil_r. Qed.

Lemma grown_trans P st1 st2 st3 :
  grown P st1 st2 -> grown P st2 st3 -> grown P st1 st3.
Proof.
  intros (a & Ha & Hpa) (b & Hb & Hpb). exists (a ++ b).
  split; [by rewrite Hb, Ha, app_assoc|by apply Forall_app].
Qed.

Lemma grown_weaken (P Q : Rec -> Prop) st st' :
  (forall m, P m -> Q m) -> grown P st st' -> grown Q st st'.
Proof. intros HPQ (a & Ha & Hpa). exists a. split; [done|]. by eapply Forall_impl. Qed.

Lemma pick_grows P m st w :
  P m ->
  exists st' brk, pick m st w = (Ret (st', brk), w) /\ grown P st st'.
Proof.
  intros Hm. unfold pick.
  destruct (str_field m "imdbID") as [id|]; [|exists st, false; split; [done|apply grown_refl]].
  destruct (negb (seen_at st.1 id)); [|exists st, false; split; [done|apply grown_refl]].
  do 2 eexists. split; [done|]. exists [m]. split; [done|]. by constructor.
Qed.

Lemma pick_loop_grows P cands st w :
  Forall P cands ->
  ensures (forRange pick cands st) w (fun st' _ => grown P st st').
Proof.
  intros Hall. rewrite Forall_forall in Hall.
  apply (ensures_forRange_inv _ (fun st' _ => grown P st st')); [|apply grown_refl].
  intros m st' w' Hm Hst'.
  destruct (pick_grows P m st' w' (Hall m Hm)) as (st'' & brk & Hrun & Hg).
  apply ensures_run. do 2 eexists. split; [done|]. simpl. by eapply grown_trans.
Qed.

(** The loop over the candidates sends nothing upstream. *)
Lemma pick_loop_quiet cands st w :
  ensures (forRange pick cands st) w (fun _ w' => w' = w).
Proof.
  apply (ensures_forRange_inv _ (fun _ w' => w' = w)); [|done].
  intros m st' w' _ ->.
  destruct (pick_grows (fun _ => True) m st' w I) as (st'' & brk & Hrun & _).
  apply ensures_run. by do 2 eexists.
Qed.

Lemma recommend_term_grows term st w :
  ensures (recommend_term term st) w
    (fun r _ => grown (picked_for [TrimSpace term]) st r.1).
Proof.
  unfold recommend_term. apply ensures_bind.
  eapply ensures_mono; [apply collectByGenre_matches|]. intros found w' Hfound.
  apply ensures_bind. rewrite topByRating_run by done. apply ensures_lift.
  apply ensures_bind.
  eapply ensures_mono; [|by intros st' w'' Hst'; apply ensures_ret, Hst'].
  apply pick_loop_grows. apply Forall_forall. intros m Hm.
  apply subseteq_take in Hm. rewrite sort_Slice_perm in Hm.
  rewrite Forall_forall in Hfound. destruct (Hfound m Hm) as [Hg Hr].
  split; [done|]. exists (TrimSpace term). split; [by left|done].
Qed.

Lemma phase_grows field seed st w :
  ensures (phase field seed st) w (fun st' _ => grown (picked_for (terms seed field)) st st').
Proof.
  unfold phase, terms.
  destruct (str_field seed field) as [g|]; [|apply ensures_ret, grown_refl].
  apply (ensures_forRange_inv _
           (fun st' _ => grown (picked_for (TrimSpace <$> Split g ",")) st st'));
    [|apply grown_refl].
  intros term st' w' Hterm Hst'.
  eapply ensures_mono; [apply recommend_term_grows|]. intros r w'' Hr.
  eapply grown_trans; [exact Hst'|]. eapply grown_weaken; [|exact Hr].
  intros m [Hresp (t & Ht & Hg)]. split; [done|]. exists t. split; [|done].
  apply list_elem_of_singleton in Ht as ->. by apply list_elem_of_fmap_2.
Qed.

Lemma director_phase_grows seed st w :
  ensures (director_phase seed st) w
    (fun st' _ => grown (picked_for (terms seed "Director")) st st').
Proof.
  unfold director_phase. case_bool_decide; [apply phase_grows|].
  apply ensures_ret, grown_refl.
Qed.

Lemma actor_phase_grows seed st w :
  ensures (actor_phase seed st) w
    (fun st' _ => grown (picked_for (terms seed "Actors")) st st').
Proof.
  unfold actor_phase. case_bool_decide; [apply phase_grows|].
  apply ensures_ret, grown_refl.
Qed.

(** The three phases, one after the other, with what each leaves. *)
Lemma phases_run seed w :
  ensures (genre_phase seed (seen_init seed, [])) w (fun st1 w1 =>
    grown (picked_for (terms seed "Genre")) (seen_init seed, []) st1 /\
    ensures (director_phase seed st1) w1 (fun st2 w2 =>
      grown (picked_for (terms seed "Director")) st1 st2 /\
      ensures (actor_phase seed st2) w2 (fun st3 w3 =>
        grown (picked_for (terms seed "Actors")) st2 st3 /\
        recommend_from seed w = (Ret st3.2, w3)))).
Proof.
  pose proof (ensures_and _ _ _ _
                (phase_run (seen_init seed) "Genre" seed _ w (acc_open_init seed))
                (phase_grows "Genre" seed (seen_init seed, []) w)) as H1.
  apply ensures_run in H1 as (st1 & w1 & Hrun1 & Hok1 & Hg1).
  apply ensures_run. exists st1, w1. split; [done|]. split; [done|].
  pose proof (ensures_and _ _ _ _
                (director_phase_run (seen_init seed) seed st1 w1 Hok1)
                (director_phase_grows seed st1 w1)) as H2.
  apply ensures_run in H2 as (st2 & w2 & Hrun2 & Hok2 & Hg2).
  apply ensures_run. exists st2, w2. split; [done|]. split; [done|].
  pose proof (ensures_and _ _ _ _
                (actor_phase_run (seen_init seed) seed st2 w2 Hok2)
                (actor_phase_grows seed st2 w2)) as H3.
  apply ensures_run in H3 as (st3 & w3 & Hrun3 & Hok3 & Hg3).
  apply ensures_run. exists st3, w3. split; [done|]. split; [done|].
  unfold recommend_from.
  rewrite (run_bind _ _ _ _ _ Hrun1), (run_bind _ _ _ _ _ Hrun2),
    (run_bind _ _ _ _ _ Hrun3).
  pose proof (acc_len _ _ Hok3). by rewrite bool_decide_eq_false_2 by lia.
Qed.


(** X10.  A later phase only adds behind what is there: the results of the
    genre phase start the results of the director phase, which start the
    results of the actor phase, and these are the list returned. *)
Theorem later_phases_append seed w :
  ensures (genre_phase seed (seen_init seed, [])) w (fun st1 w1 =>
    ensures (director_phase seed st1) w1 (fun st2 w2 =>
      ensures (actor_phase seed st2) w2 (fun st3 w3 =>
        st1.2 `prefix_of` st2.2 /\ st2.2 `prefix_of` st3.2 /\
        recommend_from seed w = (Ret st3.2, w3)))).
Proof.
  eapply ensures_mono; [apply phases_run|]. intros st1 w1 [_ H2].
  eapply ensures_mono; [exact H2|]. intros st2 w2 [(d & Hd & _) H3].
  eapply ensures_mono; [exact H3|]. intros st3 w3 [(a & Ha & _) Hrun].
  split; [by exists d|]. split; [by exists a|done].
Qed.

End OrchestratorMore.

(** ** The other handlers *)

Section HandlerFacts.
Context `{GoLib} {World : Type} `{!Effects World} `{!DetailEffects World}.
Implicit Types (w : World) (m md : Rec).

Lemma project_lookup keys m k :
  project keys m !! k = if bool_decide (k ∈ keys) then Some (field m k) else None.
Proof.
  unfold project. induction keys as [|k' keys IH].
  - by rewrite fmap_nil, list_to_map_nil, lookup_empty.
  - rewrite fmap_cons, list_to_map_cons, lookup_insert, IH.
    destruct (decide (k' = k)) as [->|Hk].
    + rewrite bool_decide_eq_true_2; [done|by left].
    + case_bool_decide as Hin.
      * rewrite bool_decide_eq_true_2; [done|by right].
      * rewrite bool_decide_eq_false_2; [done|].
        intros [?|?]%elem_of_cons; [by subst|done].
Qed.

Lemma str_field_project keys m k :
  k ∈ keys -> str_field (project keys m) k = str_field m k.
Proof.
  intros Hk. unfold str_field. rewrite project_lookup, bool_decide_eq_true_2 by done.
  unfold field. by destruct (m !! k) as [[]|].
Qed.

Lemma ratingVal_project keys m :
  "imdbRating" ∈ keys -> ratingVal (project keys m) = ratingVal m.
Proof. intros Hk. unfold ratingVal. by rewrite str_field_project. Qed.

End HandlerFacts.

Section HandlerClaims.
Context `{GoLib} {World : Type} `{!Effects World} `{!DetailEffects World}.
Implicit Types (w : World) (m md : Rec).

(** X11.  [moviesByGenreHandler] answers 400 without sending anything when
    [genre] is empty; otherwise it answers 200 whatever the provider does
    (an upstream failure gives fewer movies, not an error), [count] is the
    number of movies, at most 15, and the Genre of every movie listed is a
    string that contains [genre], both in lower case. *)
Theorem moviesByGenreHandler_answers genre w :
  (genre = "" ->
   moviesByGenreHandler genre w = (Ret (Genre400 "missing genre"), w)) /\
  (genre <> "" ->
   ensures (moviesByGenreHandler genre) w (fun resp _ =>
     match resp with
     | Genre200 g count movies =>
         g = genre /\ count = Z.of_nat (length movies) /\ count <= 15 /\
         Forall (fun o : Rec =>
                   exists g', o !! "Genre" = Some (VString g') /\
                              Contains (ToLower g') (ToLower genre) = true) movies
     | Genre400 _ => False
     end)).
Proof.
  split; unfold moviesByGenreHandler.
  - intros ->. done.
  - intros Hg. rewrite bool_decide_eq_false_2 by done.
    apply ensures_bind.
    eapply ensures_mono; [apply collectByGenre_matches|]. intros cands w' Hcands.
    apply ensures_bind. rewrite topByRating_run by done. apply ensures_lift.
    apply ensures_ret. split; [done|]. split; [done|]. split.
    + rewrite length_fmap, length_take. lia.
    + apply Forall_fmap, Forall_forall. intros m Hm.
      apply subseteq_take in Hm. rewrite sort_Slice_perm in Hm.
      rewrite Forall_forall in Hcands. destruct (Hcands m Hm) as [Hmatch _].
      apply genre_match_spec in Hmatch as (g' & Hg' & Hc). exists g'.
      split; [|done]. simpl. rewrite project_lookup.
      rewrite bool_decide_eq_true_2 by (by repeat constructor).
      unfold field. by rewrite Hg'.
Qed.

(** X12.  When no record that the provider sends for an id has a rating
    that parses to NaN, the movies in the answer of [moviesByGenreHandler]
    are ordered by non-increasing parsed rating. *)
Theorem moviesByGenreHandler_sorted genre w :
  (forall id md w', fetched id md w' -> is_nan (ratingVal md) = false) ->
  ensures (moviesByGenreHandler genre) w (fun resp _ =>
    match resp with
    | Genre200 _ _ movies => StronglySorted by_rating movies
    | Genre400 _ => True
    end).
Proof.
  intros Hnan. unfold moviesByGenreHandler.
  case_bool_decide; [by apply ensures_ret|].
  apply ensures_bind.
  eapply ensures_mono;
    [apply (collectByGenre_inv
              (fun found => forall id md, found !! id = Some md ->
                                          is_nan (ratingVal md) = false))|].
  - intros found id md w' Hall _ _ Hf _ id' md'. rewrite lookup_insert.
    case_decide; [|apply Hall]. intros [= <-]. by eapply Hnan.
  - intros id md. by rewrite lookup_empty.
  - intros cands w' (found & Hall & Hperm).
    apply ensures_bind. rewrite topByRating_run by done. apply ensures_lift.
    apply ensures_ret.
    apply (StronglySorted_fmap _ by_rating).
    { intros a b. unfold by_rating.
      by rewrite !ratingVal_project by (by repeat constructor). }
    assert (StronglySorted by_rating (sort_Slice rating_less cands)) as Hs.
    { apply sort_Slice_by_rating. intros m Hm. rewrite Hperm in Hm.
      apply list_elem_of_fmap in Hm as ([id md] & -> & Hin).
      apply elem_of_map_to_list in Hin. by eapply Hall. }
    rewrite <- (take_drop (Z.to_nat 15)) in Hs.
    by apply StronglySorted_app_1_l in Hs.
Qed.

(** X13.  [movieHandler] answers 400 exactly when the title is empty, and
    then sends nothing; otherwise it sends one fetch and answers 404
    exactly when the fetch fails or the record has [Response] ["False"];
    the body of a 200 answer has the seven keys of the handler and no
    other, each with the value of the record, or nil where the record has
    none. *)
Theorem movieHandler_answers t w :
  ensures (movieHandler t) w (fun resp w' =>
    match resp with
    | Detail400 _ => t = "" /\ w' = w
    | Detail404 _ =>
        t <> "" /\ w' = (fetchJSON_movie t w).2 /\
        forall m, (fetchJSON_movie t w).1 = Some m ->
                  field_is m "Response" "False" = true
    | Detail200 body =>
        t <> "" /\ w' = (fetchJSON_movie t w).2 /\
        exists m,
          (fetchJSON_movie t w).1 = Some m /\
          field_is m "Response" "False" = false /\
          forall k, body !! k =
                    if bool_decide (k ∈ movie_keys) then Some (field m k) else None
    end).
Proof.
  unfold movieHandler. case_bool_decide as Ht; [by apply ensures_ret|].
  apply ensures_bind, ensures_call.
  destruct (fetchJSON_movie t w) as [[m|] w']; simpl.
  - destruct (field_is m "Response" "False") eqn:Hr; apply ensures_ret.
    + split; [done|]. split; [done|]. by intros ? [= <-].
    + split; [done|]. split; [done|]. exists m.
      split; [done|]. split; [done|]. intros k. apply project_lookup.
  - apply ensures_ret. by split.
Qed.

(** X14.  [episodeHandler] answers 400 exactly when one of its three
    parameters is empty, and then sends nothing; otherwise it sends one
    fetch and answers 404 exactly when the fetch fails or the record has
    [Response] ["False"]; the body of a 200 answer has the six keys of
    the handler and no other, each with the value of the record, or nil
    where the record has none. *)
Theorem episodeHandler_answers s se e w :
  ensures (episodeHandler s se e) w (fun resp w' =>
    match resp with
    | Detail400 _ => (s = "" \/ se = "" \/ e = "") /\ w' = w
    | Detail404 _ =>
        s <> "" /\ se <> "" /\ e <> "" /\ w' = (fetchJSON_episode s se e w).2 /\
        forall m, (fetchJSON_episode s se e w).1 = Some m ->
                  field_is m "Response" "False" = true
    | Detail200 body =>
        s <> "" /\ se <> "" /\ e <> "" /\ w' = (fetchJSON_episode s se e w).2 /\
        exists m,
          (fetchJSON_episode s se e w).1 = Some m /\
          field_is m "Response" "False" = false /\
          forall k, body !! k =
                    if bool_decide (k ∈ episode_keys) then Some (field m k) else None
    end).
Proof.
  unfold episodeHandler.
  case_bool_decide as Hs; [by apply ensures_ret; split; [left|]|].
  case_bool_decide as Hse; [by apply ensures_ret; split; [right; left|]|].
  case_bool_decide as He; [by apply ensures_ret; split; [right; right|]|].
  simpl. apply ensures_bind, ensures_call.
  destruct (fetchJSON_episode s se e w) as [[m|] w']; simpl.
  - destruct (field_is m "Response" "False") eqn:Hr; apply ensures_ret.
    + do 3 (split; [done|]). split; [done|]. by intros ? [= <-].
    + do 3 (split; [done|]). split; [done|]. exists m.
      split; [done|]. split; [done|]. intros k. apply project_lookup.
  - apply ensures_ret. by do 4 (split; [done|]).
Qed.

(** X15.  Each recommendation in a 200 answer of [recommendHandler] has
    the seven keys of the handler and no other, so that what else the
    provider sent ([Response], [Plot], ...) is left out, and its [imdbID]
    is a string; a key that the record lacks is there with nil. *)
Theorem recommendHandler_objects fav w :
  ensures (recommendHandler fav) w (fun resp _ =>
    match resp with
    | Status200 _ recs =>
        Forall (fun o : Rec =>
                  dom o = list_to_set recommendation_keys /\
                  exists id, o !! "imdbID" = Some (VString id)) recs
    | _ => True
    end) /\
  (forall m k, k ∈ recommendation_keys -> m !! k = None ->
               recommendation m !! k = Some VNull).
Proof.
  split.
  - unfold recommendHandler. case_bool_decide; [by apply ensures_ret|].
    apply ensures_bind. unfold recommend. apply ensures_bind.
    eapply ensures_mono; [apply getDetailByTitle_returns|].
    intros [seed|] w' _; [|by do 2 apply ensures_ret].
    apply ensures_bind. eapply ensures_mono; [apply recommend_from_run|].
    intros result w'' (seen & Hok). do 2 apply ensures_ret.
    apply Forall_fmap, Forall_forall. intros m Hm. simpl. split.
    + unfold recommendation. rewrite dom_list_to_map_L.
      by rewrite <- list_fmap_compose.
    + destruct (acc_ok_ids _ _ _ _ Hok Hm) as (id & Hid & _). exists id.
      change (recommendation m) with (project recommendation_keys m).
      rewrite project_lookup, bool_decide_eq_true_2 by (by repeat constructor).
      unfold field. by rewrite Hid.
  - intros m k Hk Hnone.
    change (recommendation m) with (project recommendation_keys m).
    rewrite project_lookup, bool_decide_eq_true_2 by done.
    unfold field. by rewrite Hnone.
Qed.

End HandlerClaims.

Section OmdbURLClaims.
Context (encode : gmap string (list string) -> string) (apiKey : string).

Lemma omdb_fold_lookup (order : list (string * string)) (v : gmap string (list string)) k :
  NoDup order.*1 ->
  fold_left (fun v kv => <[kv.1 := [kv.2]]> v) order v !! k =
  match (list_to_map order : gmap string string) !! k with
  | Some val => Some [val]
  | None => v !! k
  end.
Proof.
  revert v. induction order as [|[k0 v0] order IH]; intros v Hnd; simpl.
  - by rewrite lookup_empty.
  - apply NoDup_cons in Hnd as [Hk0 Hnd]. rewrite IH by done.
    rewrite !lookup_insert. destruct (decide (k0 = k)) as [->|Hne]; [|done].
    by rewrite (not_elem_of_list_to_map_1 _ _ Hk0).
Qed.

(** X16.  The query that [omdbURL] encodes does not depend on the order in
    which the runtime ranges over [params]: it holds each parameter with
    its one value, and the API key under [apikey] unless [params] has that
    key itself; so the address is the same for every order. *)
Theorem omdbURL_any_order (params : gmap string string) order :
  order ≡ₚ map_to_list params ->
  (forall k val, params !! k = Some val -> omdb_values apiKey order !! k = Some [val]) /\
  (params !! "apikey" = None -> omdb_values apiKey order !! "apikey" = Some [apiKey]) /\
  (forall k, k <> "apikey" -> params !! k = None -> omdb_values apiKey order !! k = None) /\
  omdbURL encode apiKey order = omdbURL encode apiKey (map_to_list params).
Proof.
  intros Hperm.
  assert (forall order', order' ≡ₚ map_to_list params ->
            forall k, omdb_values apiKey order' !! k =
                      match params !! k with
                      | Some val => Some [val]
                      | None => ({["apikey" := [apiKey]]} : gmap string (list string)) !! k
                      end) as Hlookup.
  { intros order' Hperm' k.
    assert (NoDup order'.*1) as Hnd
      by (rewrite Hperm'; apply NoDup_fst_map_to_list).
    unfold omdb_values. rewrite omdb_fold_lookup by done.
    by rewrite (list_to_map_proper order' (map_to_list params) Hnd Hperm'),
      list_to_map_to_list. }
  split; [|split; [|split]].
  - intros k val Hk. by rewrite Hlookup, Hk.
  - intros Hk. by rewrite Hlookup, Hk, lookup_singleton_eq.
  - intros k Hne Hk. by rewrite Hlookup, Hk, lookup_singleton_ne.
  - unfold omdbURL. f_equal. f_equal. apply map_eq. intros k.
    by rewrite !Hlookup.
Qed.

End OmdbURLClaims.

(** ** What is sent upstream *)

Section Traces.
Context `{GoLib} {World : Type} `{!Effects World}.
#[local] Existing Instance traced.
Implicit Types (w : World) (log : Log) (wl : World * Log).

Lemma sent_nil (P : list Request -> Prop) wl : P [] -> sent P wl.2 wl.
Proof. intros HP. exists []. by rewrite app_nil_r. Qed.

Lemma sent_app (P P' P'' : list Request -> Prop) log wl wl' :
  (forall a b, P a -> P' b -> P'' (a ++ b)) ->
  sent P log wl -> sent P' wl.2 wl' -> sent P'' log wl'.
Proof.
  intros Happ (a & Ha & HPa) (b & Hb & HPb). exists (a ++ b).
  split; [by rewrite Hb, Ha, app_assoc|by apply Happ].
Qed.

Lemma searchByKeyword_sent keyword page wl :
  ensures (searchByKeyword keyword page) wl
    (fun _ wl' => wl'.2 = wl.2 ++ [GetSearch keyword page]).
Proof.
  destruct (searchByKeyword_run keyword page wl) as (items & Hrun).
  apply ensures_run. by do 2 eexists.
Qed.

Lemma getDetailByID_sent id wl :
  ensures (getDetailByID id) wl (fun _ wl' => wl'.2 = wl.2 ++ [GetID id]).
Proof.
  destruct (getDetailByID_run id wl) as (r & Hrun & _).
  apply ensures_run. by do 2 eexists.
Qed.

Lemma ids_only_app a b : ids_only a -> ids_only b -> ids_only (a ++ b).
Proof.
  intros [Ha Hsa] [Hb Hsb]. split; [by apply Forall_app|].
  unfold searches in *. by rewrite omap_app, Hsa, Hsb.
Qed.

Lemma collect_item_sent gen limit it found wl :
  ensures (collect_item gen limit it found) wl (fun _ wl' => sent ids_only wl.2 wl').
Proof.
  unfold collect_item.
  case_bool_decide as Hid; [by apply ensures_ret, sent_nil|].
  case_bool_decide; [by apply ensures_ret, sent_nil|].
  apply ensures_bind. eapply ensures_mono; [apply getDetailByID_sent|].
  intros r wl' Hlog.
  assert (sent ids_only wl.2 wl') as Hsent.
  { exists [GetID (ImdbID it)]. split; [done|]. split; [|done]. by constructor. }
  destruct r as [md|]; [|by apply ensures_ret].
  by destruct (genre_match gen md); apply ensures_ret.
Qed.

Lemma collect_items_sent gen limit items found wl :
  ensures (forRange (collect_item gen limit) items found) wl
    (fun _ wl' => sent ids_only wl.2 wl').
Proof.
  apply (ensures_forRange_inv _ (fun _ wl' => sent ids_only wl.2 wl'));
    [|by apply sent_nil].
  intros it found' wl' _ Hsent.
  eapply ensures_mono; [apply collect_item_sent|]. intros r wl'' Hsent'.
  eapply sent_app; [apply ids_only_app|done..].
Qed.

Lemma scanned_snoc done k reqs ids :
  scanned done reqs -> ids_only ids ->
  scanned (done ++ [k]) (reqs ++ GetSearch k 1 :: ids).
Proof.
  intros [Hr Hs] [Hi Hsi]. split.
  - apply Forall_app. split; [done|]. by constructor.
  - unfold searches in *.
    change (GetSearch k 1 :: ids) with ([GetSearch k 1] ++ ids).
    by rewrite !omap_app, Hs, Hsi, fmap_app.
Qed.

Lemma collect_found_sent gen limit wl :
  ensures (collect_found gen limit) wl
    (fun _ wl' => sent (fun reqs => exists done, done `prefix_of` kw /\ scanned done reqs)
                       wl.2 wl').
Proof.
  unfold collect_found.
  apply (ensures_forRange_done _ (fun done _ wl' => sent (scanned done) wl.2 wl')).
  - intros _ wl' (reqs & Hlog & Hsc). exists reqs. split; [done|]. by exists kw.
  - intros done k rest found wl' Hkw (reqs & Hlog & Hsc). unfold collect_keyword.
    apply ensures_bind. eapply ensures_mono; [apply searchByKeyword_sent|].
    intros items wl1 Hlog1.
    assert (sent (scanned (done ++ [k])) wl.2 wl1) as Hsent1.
    { exists (reqs ++ [GetSearch k 1]). split; [by rewrite Hlog1, Hlog, app_assoc|].
      by apply scanned_snoc. }
    destruct items as [items|]; [|by apply ensures_ret].
    apply ensures_bind. eapply ensures_mono; [apply collect_items_sent|].
    intros found' wl2 (ids & Hlog2 & Hids). apply ensures_ret. simpl.
    assert (sent (scanned (done ++ [k])) wl.2 wl2) as Hsent2.
    { exists (reqs ++ GetSearch k 1 :: ids). split; [|by apply scanned_snoc].
      rewrite Hlog2, Hlog1, Hlog. by rewrite <- !app_assoc. }
    case_bool_decide; [|done].
    destruct Hsent2 as (reqs2 & ? & ?). exists reqs2. split; [done|].
    exists (done ++ [k]). split; [|done]. exists rest. by rewrite <- app_assoc.
  - apply sent_nil. by split.
Qed.

Lemma collectByGenre_sent gen limit wl :
  ensures (collectByGenre gen limit) wl
    (fun _ wl' =>
       sent (fun reqs =>
               Forall search_or_id reqs /\
               searches reqs `prefix_of` ((fun k => (k, 1)) <$> kw)) wl.2 wl').
Proof.
  unfold collectByGenre. apply ensures_bind.
  eapply ensures_mono; [apply collect_found_sent|].
  intros found wl1 (reqs & Hlog & done & Hpre & Hok & Hs).
  apply ensures_bind, ensures_call, ensures_ret.
  exists reqs. split; [done|]. split; [done|].
  rewrite Hs. destruct Hpre as (rest & ->). exists ((fun k => (k, 1)) <$> rest).
  by rewrite fmap_app.
Qed.

(** X17.  What [collectByGenre] sends upstream, whatever the provider, the
    filter and the limit: searches and fetches by id only, never a fetch
    by title; no fetch for an empty id; the searches are for page 1 of
    the keywords of [kw], in the order of [kw], each at most once, so at
    most nine. *)
Theorem collectByGenre_requests gen limit w log :
  ensures (collectByGenre gen limit) (w, log)
    (fun _ wl' =>
       exists reqs,
         wl'.2 = log ++ reqs /\
         Forall search_or_id reqs /\
         searches reqs `prefix_of` ((fun k => (k, 1)) <$> kw) /\
         (length (searches reqs) <= 9)%nat).
Proof.
  eapply ensures_mono; [apply collectByGenre_sent|].
  intros out wl' (reqs & Hlog & Hok & Hpre). exists reqs.
  split; [done|]. split; [done|]. split; [done|].
  apply prefix_length in Hpre. by rewrite length_fmap in Hpre.
Qed.

End Traces.

Section ResolverTraces.
Context {World : Type} `{!Effects World}.
#[local] Existing Instance traced.
Implicit Types (w : World) (log : Log) (wl : World * Log).

Lemma paged_snoc title done p reqs ids :
  paged title done reqs -> ids_only ids ->
  paged title (done ++ [p]) (reqs ++ GetSearch title p :: ids).
Proof.
  intros [Hr Hs] [Hi Hsi]. split.
  - apply Forall_app. split; [done|]. by constructor.
  - unfold searches in *.
    change (GetSearch title p :: ids) with ([GetSearch title p] ++ ids).
    by rewrite !omap_app, Hs, Hsi, fmap_app.
Qed.

Lemma resolve_items_sent items wl :
  ensures (forRange resolve_item items None) wl
    (fun r wl' => sent (fun reqs => ids_only reqs /\ ends_at_hit r reqs) wl.2 wl').
Proof.
  apply (ensures_forRange _ (fun r wl' => r = None /\ sent ids_only wl.2 wl')).
  - intros r wl' [-> (reqs & Hlog & Hids)]. by exists reqs.
  - intros it r wl' _ [-> (reqs & Hlog & Hids)]. unfold resolve_item.
    case_bool_decide as Hid.
    { apply ensures_ret. simpl. split; [done|]. by exists reqs. }
    apply ensures_bind. eapply ensures_mono; [apply getDetailByID_sent|].
    intros o wl'' Hlog'.
    assert (ids_only (reqs ++ [GetID (ImdbID it)])) as Hids'.
    { apply ids_only_app; [done|]. split; [|done]. by constructor. }
    assert (wl''.2 = wl.2 ++ (reqs ++ [GetID (ImdbID it)])) as Hlog''
      by (by rewrite Hlog', Hlog, app_assoc).
    destruct o as [m|]; apply ensures_ret; simpl.
    + eexists. split; [done|]. split; [done|]. by eexists _, _.
    + split; [done|]. by eexists.
  - split; [done|]. by apply sent_nil.
Qed.

Lemma resolve_pages_sent title wl :
  ensures (forRange (resolve_page title) [1; 2] None) wl
    (fun r wl' =>
       sent (fun reqs =>
               Forall search_or_id reqs /\
               searches reqs `prefix_of` [(title, 1); (title, 2)] /\
               match r with
               | Some _ => exists pre i, reqs = pre ++ [GetID i]
               | None => searches reqs = [(title, 1); (title, 2)]
               end) wl.2 wl').
Proof.
  apply (ensures_forRange_done _
           (fun done r wl' => r = None /\ sent (paged title done) wl.2 wl')).
  - intros r wl' [-> (reqs & Hlog & Hok & Hs)]. exists reqs.
    split; [done|]. split; [done|]. by rewrite Hs.
  - intros done p rest r wl' Hpages [-> (reqs & Hlog & Hpaged)].
    unfold resolve_page.
    apply ensures_bind. eapply ensures_mono; [apply searchByKeyword_sent|].
    intros items wl1 Hlog1.
    destruct items as [items|]; last first.
    { apply ensures_ret. simpl. split; [done|].
      exists (reqs ++ [GetSearch title p]).
      split; [by rewrite Hlog1, Hlog, app_assoc|]. by apply paged_snoc. }
    apply ensures_bind. eapply ensures_mono; [apply resolve_items_sent|].
    intros r wl2 (ids & Hlog2 & Hids & Hend). apply ensures_ret. simpl.
    assert (wl2.2 = wl.2 ++ (reqs ++ GetSearch title p :: ids)) as Hlog2'.
    { rewrite Hlog2, Hlog1, Hlog. by rewrite <- !app_assoc. }
    pose proof (paged_snoc title done p reqs ids Hpaged Hids) as [Hok Hs].
    destruct r as [m|]; simpl.
    + eexists. split; [done|]. split; [done|]. split.
      * rewrite Hs. exists ((fun p => (title, p)) <$> rest).
        rewrite <- fmap_app, <- app_assoc. simpl. by rewrite <- Hpages.
      * destruct Hend as (pre & i & ->).
        exists (reqs ++ GetSearch title p :: pre), i.
        by rewrite <- app_assoc.
    + split; [done|]. by eexists.
  - split; [done|]. apply sent_nil. by split.
Qed.

(** X18.  What [getDetailByTitle] sends upstream, whatever the provider:
    first the fetch by title; then searches and fetches by id only, none
    for an empty id; the searches are for the title, page 1 and then page
    2, never more.  When a record comes back, nothing is sent after the
    fetch that gave it; when none does, both pages have been searched. *)
Theorem getDetailByTitle_requests title w log :
  ensures (getDetailByTitle title) (w, log)
    (fun r wl' =>
       exists reqs,
         wl'.2 = log ++ GetTitle title :: reqs /\
         Forall search_or_id reqs /\
         searches reqs `prefix_of` [(title, 1); (title, 2)] /\
         match r with
         | Some _ => reqs = [] \/ exists pre i, reqs = pre ++ [GetID i]
         | None => searches reqs = [(title, 1); (title, 2)]
         end).
Proof.
  assert (forall wl1 : World * Log,
            wl1.2 = log ++ [GetTitle title] ->
            ensures (forRange (resolve_page title) [1; 2] None) wl1
              (fun r wl' =>
                 exists reqs,
                   wl'.2 = log ++ GetTitle title :: reqs /\
                   Forall search_or_id reqs /\
                   searches reqs `prefix_of` [(title, 1); (title, 2)] /\
                   match r with
                   | Some _ => reqs = [] \/ exists pre i, reqs = pre ++ [GetID i]
                   | None => searches reqs = [(title, 1); (title, 2)]
                   end)) as Hsearch.
  { intros wl1 Hlog1. eapply ensures_mono; [apply resolve_pages_sent|].
    intros r wl' (reqs & Hlog & Hok & Hpre & Hr). exists reqs.
    split; [by rewrite Hlog, Hlog1, <- app_assoc|]. split; [done|]. split; [done|].
    destruct r; [by right|done]. }
  unfold getDetailByTitle. apply ensures_bind, ensures_call.
  destruct (fetchJSON_title title (w, log)).1 as [md|]; [|by apply Hsearch].
  destruct (field_is md "Response" "True"); [|by apply Hsearch].
  apply ensures_ret. exists []. split; [done|]. split; [done|].
  split; [apply prefix_nil|by left].
Qed.

End ResolverTraces.

Section OrchestratorTraces.
Context `{GoLib} {World : Type} `{!Effects World}.
#[local] Existing Instance traced.
Implicit Types (w : World) (log : Log) (wl : World * Log) (st : Picks).

Lemma few_searches_app n n' a b :
  few_searches n a -> few_searches n' b -> few_searches (n + n') (a ++ b).
Proof.
  intros [Ha Hna] [Hb Hnb]. split; [by apply Forall_app|].
  unfold searches in *. rewrite omap_app, length_app. lia.
Qed.

Lemma few_searches_le n n' reqs :
  (n <= n')%nat -> few_searches n reqs -> few_searches n' reqs.
Proof. intros Hle [??]. split; [done|lia]. Qed.

Lemma recommend_term_sent term st wl :
  ensures (recommend_term term st) wl (fun _ wl' => sent (few_searches 9) wl.2 wl').
Proof.
  unfold recommend_term. apply ensures_bind.
  eapply ensures_mono; [apply collectByGenre_sent|].
  intros found wl1 (reqs & Hlog & Hok & Hpre).
  apply ensures_bind. rewrite topByRating_run by done. apply ensures_lift.
  apply ensures_bind.
  eapply ensures_mono; [apply pick_loop_quiet|].
  intros st' wl2 ->. apply ensures_ret. simpl.
  exists reqs. split; [done|]. split; [done|].
  apply prefix_length in Hpre. by rewrite length_fmap in Hpre.
Qed.

Lemma phase_sent field seed st wl :
  ensures (phase field seed st) wl
    (fun _ wl' => sent (few_searches (9 * length (terms seed field))) wl.2 wl').
Proof.
  unfold phase, terms.
  destruct (str_field seed field) as [g|];
    [|by apply ensures_ret, sent_nil; split].
  rewrite length_fmap.
  apply (ensures_forRange_done _
           (fun done _ wl' => sent (few_searches (9 * length done)) wl.2 wl')).
  - done.
  - intros done term rest st' wl' Hterms Hsent.
    eapply ensures_mono; [apply recommend_term_sent|].
    intros r wl'' Hsent'.
    assert (sent (few_searches (9 * length (done ++ [term]))) wl.2 wl'') as Hall.
    { eapply sent_app; [|exact Hsent|exact Hsent']. intros a b Ha Hb.
      eapply few_searches_le; [|by apply few_searches_app].
      rewrite length_app. simpl. lia. }
    destruct r.2; [|done].
    destruct Hall as (reqs & Hlog & Hfew). exists reqs. split; [done|].
    eapply few_searches_le; [|done]. rewrite Hterms, !length_app. simpl. lia.
  - by apply sent_nil; split.
Qed.

Lemma gated_phase_sent field seed st wl (gate : bool) :
  ensures (if gate then phase field seed st else ret st) wl
    (fun _ wl' => sent (few_searches (9 * length (terms seed field))) wl.2 wl').
Proof.
  destruct gate; [apply phase_sent|]. apply ensures_ret, sent_nil.
  split; [done|simpl; lia].
Qed.

(** X19.  What the three phases of [recommendHandler] send upstream,
    whatever the provider: searches and fetches by id only, none for an
    empty id, and at most nine searches for each term of the seed's Genre,
    Director and Actors. *)
Theorem recommend_from_requests seed w log :
  ensures (recommend_from seed) (w, log)
    (fun _ wl' =>
       exists reqs,
         wl'.2 = log ++ reqs /\
         Forall search_or_id reqs /\
         (length (searches reqs) <=
            9 * (length (terms seed "Genre") + length (terms seed "Director") +
                 length (terms seed "Actors")))%nat).
Proof.
  unfold recommend_from, genre_phase, director_phase, actor_phase.
  apply ensures_bind. eapply ensures_mono; [apply phase_sent|].
  intros st1 wl1 H1. apply ensures_bind.
  eapply ensures_mono; [apply (gated_phase_sent "Director")|].
  intros st2 wl2 H2. apply ensures_bind.
  eapply ensures_mono; [apply (gated_phase_sent "Actors")|].
  intros st3 wl3 H3.
  assert (sent (few_searches (9 * length (terms seed "Genre") +
                              9 * length (terms seed "Director") +
                              9 * length (terms seed "Actors"))) log wl3)
    as (reqs & Hlog & Hok & Hlen).
  { eapply sent_app; [|eapply sent_app; [|exact H1|exact H2]|exact H3];
      intros a b; apply few_searches_app. }
  assert (exists reqs0, wl3.2 = log ++ reqs0 /\ Forall search_or_id reqs0 /\
            (length (searches reqs0) <=
               9 * (length (terms seed "Genre") + length (terms seed "Director") +
                    length (terms seed "Actors")))%nat) as Hgoal.
  { exists reqs. split; [done|]. split; [done|]. lia. }
  by case_bool_decide; apply ensures_ret.
Qed.

End OrchestratorTraces.

(* ===================================================================== *)
(** * The further properties at work on the samples *)
(* ===================================================================== *)

Section MoreRuns.
Import Sample SampleMore.
#[local] Existing Instance ascii_lib.

(** The handler ranks what the collector found and keeps five keys. *)
Example moviesByGenreHandler_scifi :
  (@moviesByGenreHandler _ Log (scripted catalog) "Sci-Fi" []).1 =
    Ret (Genre200 "Sci-Fi" 3
           [rec [("Title", VString "Inception"); ("Year", VNull);
                 ("imdbID", VString "tt1375666");
                 ("Genre", VString "Action, Sci-Fi");
                 ("imdbRating", VString "8.8")];
            rec [("Title", VNull); ("Year", VNull);
                 ("imdbID", VString "tt0133093");
                 ("Genre", VString "Action, Sci-Fi");
                 ("imdbRating", VString "8.7")];
            rec [("Title", VNull); ("Year", VNull);
                 ("imdbID", VString "tt0088763");
                 ("Genre", VString "Adventure, Comedy, Sci-Fi");
                 ("imdbRating", VString "N/A")]]).
Proof. reflexivity. Qed.

Example movieHandler_runs :
  (fun t => @movieHandler nat counting t 0%nat) <$> [""; "Memento"; "Heat"] =
  [(Ret (Detail400 "missing title"), 0%nat);
   (Ret (Detail404 "movie not found"), 1%nat);
   (Ret (Detail404 "movie not found"), 1%nat)].
Proof. reflexivity. Qed.

Example episodeHandler_pilot :
  @episodeHandler nat counting "Breaking Bad" "1" "1" 0%nat =
  (Ret (Detail200
          (rec [("Title", VString "Pilot"); ("Season", VString "1");
                ("Episode", VString "1"); ("Released", VString "2008-01-20");
                ("Plot", VNull); ("imdbRating", VString "9.0")])), 1%nat).
Proof. reflexivity. Qed.

Example omdbURL_short :
  omdbURL plain_query "k" (map_to_list short_params) =
  "https://www.omdbapi.com/?apikey=k&t=Inception&plot=short"%string.
Proof. reflexivity. Qed.

(** The records of the sample catalog. *)
Lemma catalog_details id md (w : Log) :
  (@fetchJSON_id Log (scripted catalog) id w).1 = Some md -> (id, md) ∈ details.
Proof.
  intros Hf.
  change ((list_to_map details : gmap string Rec) !! id = Some md) in Hf.
  by apply elem_of_list_to_map_2 in Hf.
Qed.

Lemma topByRating_panics_iff_witness :
  @topByRating ascii_lib ranked (-3) = Panic.
Proof. apply (proj2 (@topByRating_panics_iff ascii_lib ranked (-3))). lia. Defined.

Lemma topByRating_length_witness :
  exists out,
    @topByRating ascii_lib ranked 9 = Ret out /\
    length out = 4%nat /\ out ≡ₚ ranked.
Proof.
  destruct (@topByRating_length ascii_lib ranked 9)
    as (out & Hrun & Hlen & Hperm); [lia|].
  exists out. split; [exact Hrun|]. split; [exact Hlen|].
  apply Hperm. simpl. lia.
Defined.

Lemma topByRating_keeps_best_witness :
  exists out rest,
    @topByRating ascii_lib ranked 2 = Ret out /\
    out ++ rest ≡ₚ ranked /\
    (forall a b, a ∈ out -> b ∈ rest -> @by_rating ascii_lib a b).
Proof.
  apply (@topByRating_keeps_best ascii_lib ranked 2); [lia|].
  apply Forall_forall. unfold ranked.
  repeat (apply Forall_cons_2; [reflexivity|]). apply Forall_nil_2.
Defined.

Lemma collectByGenre_within_limit_witness :
  ensures (@collectByGenre _ Log (scripted catalog) "sci-fi" 2) []
    (fun out _ => Z.of_nat (length out) <= 2).
Proof.
  eapply ensures_mono;
    [apply (@collectByGenre_within_limit _ Log (scripted catalog) "sci-fi" 2 [])|].
  intros out w' [Hle _]. apply Hle. lia.
Defined.

Lemma collectByGenre_nothing_matches_witness :
  ensures (@collectByGenre _ Log (scripted catalog) "western" 20) []
    (fun out _ => out = []).
Proof.
  apply (@collectByGenre_nothing_matches _ Log (scripted catalog) "western" 20 []).
  intros id md w' [Hf _]. apply catalog_details in Hf. unfold details in Hf.
  repeat (apply elem_of_cons in Hf as [[= -> ->]|Hf]; [reflexivity|]).
  by apply elem_of_nil in Hf.
Defined.

Lemma getDetailByTitle_not_found_witness :
  ensures (@getDetailByTitle Log (scripted bare_catalog) "Memento") []
    (fun r _ => r = None).
Proof.
  apply (@getDetailByTitle_not_found Log (scripted bare_catalog) "Memento" []).
  - intros md Hd. discriminate Hd.
  - intros id md w' [Hf _]. discriminate Hf.
Defined.

Lemma moviesByGenreHandler_answers_witness :
  @moviesByGenreHandler _ Log (scripted catalog) "" [] =
    (Ret (Genre400 "missing genre"), []) /\
  ensures (@moviesByGenreHandler _ Log (scripted catalog) "Sci-Fi") []
    (fun resp _ =>
       match resp with
       | Genre200 g count movies => g = "Sci-Fi" /\ count <= 15
       | Genre400 _ => False
       end).
Proof.
  split.
  - apply (proj1 (@moviesByGenreHandler_answers _ Log (scripted catalog) "" []));
      reflexivity.
  - eapply ensures_mono;
      [apply (proj2 (@moviesByGenreHandler_answers _ Log (scripted catalog)
                       "Sci-Fi" [])); discriminate|].
    intros resp w'. destruct resp as [|g count movies]; [done|].
    intros (Hg & _ & Hle & _). by split.
Defined.

Lemma moviesByGenreHandler_sorted_witness :
  ensures (@moviesByGenreHandler _ Log (scripted catalog) "Sci-Fi") []
    (fun resp _ =>
       match resp with
       | Genre200 _ _ movies => StronglySorted by_rating movies
       | Genre400 _ => True
       end).
Proof.
  apply (@moviesByGenreHandler_sorted _ Log (scripted catalog) "Sci-Fi" []).
  intros id md w' [Hf _]. apply catalog_details in Hf. unfold details in Hf.
  repeat (apply elem_of_cons in Hf as [[= -> ->]|Hf]; [reflexivity|]).
  by apply elem_of_nil in Hf.
Defined.

Lemma movieHandler_answers_witness :
  ensures (@movieHandler nat counting "Inception") 0%nat
    (fun resp n =>
       n = 1%nat /\
       exists body, resp = Detail200 body /\
         body !! "Title" = Some (VString "Inception") /\
         body !! "Ratings" = Some VNull /\
         body !! "Response" = None).
Proof.
  eapply ensures_mono; [apply (@movieHandler_answers nat counting "Inception" 0%nat)|].
  intros resp n. destruct resp as [e|e|body].
  - intros [Ht _]. discriminate Ht.
  - intros (_ & _ & Hall). specialize (Hall inception_full eq_refl). discriminate Hall.
  - intros (_ & -> & m & [= <-] & _ & Hbody). split; [reflexivity|].
    exists body. split; [reflexivity|]. by rewrite !Hbody.
Defined.

Lemma episodeHandler_answers_witness :
  ensures (@episodeHandler nat counting "Breaking Bad" "1" "7") 0%nat
    (fun resp n => n = 1%nat /\ exists e, resp = Detail404 e).
Proof.
  eapply ensures_mono;
    [apply (@episodeHandler_answers nat counting "Breaking Bad" "1" "7" 0%nat)|].
  intros resp n. destruct resp as [e|e|body].
  - intros [[Hs|[Hs|Hs]] _]; discriminate Hs.
  - intros (_ & _ & _ & -> & _). split; [reflexivity|]. by exists e.
  - intros (_ & _ & _ & _ & m & [= <-] & Hr & _). discriminate Hr.
Defined.

Lemma recommendHandler_objects_witness :
  recommendation blank !! "Year" = Some VNull.
Proof.
  apply (proj2 (@recommendHandler_objects _ Log (scripted catalog) "Inception" [])).
  - unfold recommendation_keys. set_solver.
  - reflexivity.
Defined.

Lemma omdbURL_any_order_witness :
  omdb_values "k" (reverse (map_to_list short_params)) !! "t" = Some ["Inception"] /\
  omdb_values "k" (reverse (map_to_list short_params)) !! "apikey" = Some ["k"] /\
  omdbURL plain_query "k" (reverse (map_to_list short_params)) =
  omdbURL plain_query "k" (map_to_list short_params).
Proof.
  destruct (omdbURL_any_order plain_query "k" short_params
              (reverse (map_to_list short_params)))
    as (Hin & Hkey & _ & Hurl); [apply reverse_Permutation|].
  split; [apply Hin; reflexivity|]. split; [apply Hkey; reflexivity|exact Hurl].
Defined.

End MoreRuns.
